(** * Festival planner: conflict detector, room broadcast hub, selection API

    A shallow embedding of
    - [getConflicts], [addSelection], [removeSelection]
      (server/src/controllers/playlistController.ts), and
    - the WebSocket room hub (server/src/websocket/wsServer.ts:
      [initWebSocket], [handleMessage], [joinGroupRoom], [leaveGroupRoom],
      [handleDisconnect], [broadcastToGroup], [getGroupConnectionCount]),
    - the artist list of [createPlaylist], the client's reconnection delay
      (client/src/hooks/useWebSocket.ts) and the festival times
      (client/src/utils/timeFormat.ts, [extendedTimeSchema] of
      server/src/middleware/authMiddleware.ts),
    together with the properties the specification states about them and
    further properties of the code. *)

From Stdlib Require Import ZArith String Ascii DecimalString.
From stdpp Require Import base decidable option list gmap strings.

Local Open Scope Z_scope.

(** ** JavaScript containers

    A JS [Map] iterates in insertion order and a JS [Set] likewise, so both
    are kept as lists in insertion order.  [Map] keys and [Set] elements are
    compared with SameValueZero, which on the integers and object handles
    used here is plain equality. *)

Module JsMap.
Section JsMap.
Context {V : Type}.

(** [m.has(k)] *)
Definition has (m : list (Z * V)) (k : Z) : bool :=
  bool_decide (k ∈ m.*1).

(** [m.set(k, v)]: an existing key keeps its position, a new key goes
    to the end. *)
Definition set (m : list (Z * V)) (k : Z) (v : V) : list (Z * V) :=
  if has m k
  then (λ e, if bool_decide (e.1 = k) then (k, v) else e) <$> m
  else m ++ [(k, v)].
End JsMap.

(** [m.get(k)!.push(x)]: the array stored under [k] is extended in
    place; the other entries are left alone. *)
Definition push {A : Type} (m : list (Z * list A)) (k : Z) (x : A)
  : list (Z * list A) :=
  (λ e, if bool_decide (e.1 = k) then (e.1, e.2 ++ [x]) else e) <$> m.
End JsMap.

Module JsSet.
Section JsSet.
Context {A : Type} `{EqDecision A}.

(** [s.add(x)] *)
Definition add (s : list A) (x : A) : list A :=
  if bool_decide (x ∈ s) then s else s ++ [x].

(** [s.delete(x)] *)
Definition delete (s : list A) (x : A) : list A :=
  filter (λ y, y ≠ x) s.

(** [s.size === 0] *)
Definition is_empty (s : list A) : bool :=
  match s with [] => true | _ => false end.
End JsSet.
End JsSet.

(** ** Conflict detector ([getConflicts]) *)

Module Conflicts.

(** One row of the selections/acts/stages/users join. *)
Record selection_row := SelectionRow {
  user_id : Z;
  act_id : Z;
  day_id : Z;
  stage_id : Z;
  start_time : string;
  end_time : string;
  act_name : string;
  stage_name : string;
  display_name : string
}.

Record act_ref := ActRef {
  actId : Z;
  actName : string;
  stageId : Z;
  stageName : string;
  startTime : string;
  endTime : string
}.

Record conflict := Conflict {
  userId : Z;
  userName : string;
  dayId : Z;
  acts : act_ref * act_ref
}.

(** [x < y] on two JS strings: lexicographic on the code units. *)
Definition str_lt (x y : string) : bool := String.ltb x y.

(** [a.start_time < b.end_time && b.start_time < a.end_time] *)
Definition overlaps (a b : selection_row) : bool :=
  str_lt (start_time a) (end_time b) && str_lt (start_time b) (end_time a).

Definition act_of (a : selection_row) : act_ref :=
  ActRef (act_id a) (act_name a) (stage_id a) (stage_name a)
         (start_time a) (end_time a).

(** The object pushed onto [conflicts]. *)
Definition mk_conflict (uid dayId : Z) (a b : selection_row) : conflict :=
  Conflict uid (display_name a) dayId (act_of a, act_of b).

(** The grouping loops:
    [if (!m.has(k)) m.set(k, []); m.get(k)!.push(sel);] *)
Definition group_step (key : selection_row → Z)
    (m : list (Z * list selection_row)) (sel : selection_row)
  : list (Z * list selection_row) :=
  let k := key sel in
  let m1 := if JsMap.has m k then m else JsMap.set m k [] in
  JsMap.push m1 k sel.

Definition group_by (key : selection_row → Z) (sels : list selection_row)
  : list (Z * list selection_row) :=
  foldl (group_step key) [] sels.

(** [for (let j = i + 1; j < daySels.length; j++)] with [a = daySels[i]]
    fixed and [rest] the elements after position [i]. *)
Fixpoint scan_later (uid dayId : Z) (a : selection_row)
    (rest : list selection_row) : list conflict :=
  match rest with
  | [] => []
  | b :: rest' =>
      (if overlaps a b then [mk_conflict uid dayId a b] else [])
      ++ scan_later uid dayId a rest'
  end.

(** [for (let i = 0; i < daySels.length; i++)] *)
Fixpoint day_conflicts (uid dayId : Z) (daySels : list selection_row)
  : list conflict :=
  match daySels with
  | [] => []
  | a :: rest => scan_later uid dayId a rest ++ day_conflicts uid dayId rest
  end.

(** [for (const [dayId, daySels] of byDay)] *)
Definition user_conflicts (uid : Z) (sels : list selection_row)
  : list conflict :=
  flat_map (λ e, day_conflicts uid e.1 e.2) (group_by day_id sels).

(** The computation of [getConflicts] from the fetched rows to the
    [conflicts] array. *)
Definition detectConflicts (selections : list selection_row)
  : list conflict :=
  flat_map (λ e, user_conflicts e.1 e.2) (group_by user_id selections).

(** *** Reference formulation *)

(** All position pairs [i < j] of a list, as (earlier, later). *)
Fixpoint ordered_pairs {A : Type} (l : list A) : list (A * A) :=
  match l with
  | [] => []
  | x :: l' => ((λ y, (x, y)) <$> l') ++ ordered_pairs l'
  end.

(** The entries a grouping by [key] holds for the keys [ks]: each key
  with the members of the list that carry it, in list order. *)
Definition groups_of {A : Type} (key : A → Z) (ks : list Z) (l : list A)
  : list (Z * list A) :=
  (λ k, (k, filter (λ x, key x = k) l)) <$> ks.

(** The specification's conflict condition on a pair of rows. *)
Definition is_conflict (p : selection_row * selection_row) : Prop :=
    user_id p.1 = user_id p.2 ∧ day_id p.1 = day_id p.2 ∧
    String.ltb (start_time p.1) (end_time p.2) = true ∧
    String.ltb (start_time p.2) (end_time p.1) = true.

#[global] Instance is_conflict_dec p : Decision (is_conflict p).
Proof. unfold is_conflict. apply _. Defined.

(** The record the specification asks for: earlier act first. *)
Definition conflict_of (p : selection_row * selection_row) : conflict :=
  mk_conflict (user_id p.1) (day_id p.1) p.1 p.2.

End Conflicts.

(** ** Messages exchanged over the socket (shared/types: [WebSocketMessage]) *)

Module Shared.

Record user := User {
  id : Z;
  email : string;
  displayName : string
}.

Inductive WebSocketMessage :=
| SELECTION_ADDED (userId actId groupId : Z) (userName : string) (priority : Z)
| SELECTION_REMOVED (userId actId groupId : Z)
| MEMBER_JOINED (groupId : Z) (u : user)
| MEMBER_LEFT (groupId userId : Z)
| JOIN_GROUP (groupId : Z)
| LEAVE_GROUP (groupId : Z)
| PING
| PONG.

End Shared.

(** ** Room broadcast hub (websocket/wsServer.ts) *)

Module Hub.
Import Shared.

(** A socket object is referred to by its handle; two handles are the
    same object exactly when they are equal. *)
Definition sock := positive.

(** The fields [interface AuthenticatedSocket] adds to a [WebSocket].
    They are assigned by the connection handler once the token has been
    verified; before that (and for ever, when verification fails) they
    are [undefined], which is a handle without an entry in [heap]. *)
Record AuthenticatedSocket := Socket {
  userId : Z;
  groupRooms : list Z;          (* Set<number>, insertion order *)
  isAlive : bool
}.

(** [rooms] is the module-level [groupRooms] map, [heap] holds the
    authenticated sockets' fields. *)
Record state := State {
  rooms : gmap Z (list sock);   (* Map<number, Set<AuthenticatedSocket>> *)
  heap : gmap sock AuthenticatedSocket
}.

Definition empty_hub : state := State ∅ ∅.

(** [ws.readyState] *)
Inductive ready_state := CONNECTING | OPEN | CLOSING | CLOSED.

#[global] Instance ready_state_eq_dec : EqDecision ready_state.
Proof. solve_decision. Defined.

(** How a callback ends: normally, or with an exception escaping it. *)
Inductive outcome := Completed | Threw.

(** What the hub does to a connection. *)
Inductive effect :=
| Send (s : sock) (payload : string)
| SendClose (s : sock) (code : Z) (reason : string)
| Terminate (s : sock).

Definition set_groupRooms (f : list Z → list Z) (sk : AuthenticatedSocket)
  : AuthenticatedSocket :=
  Socket (userId sk) (f (groupRooms sk)) (isAlive sk).

Definition set_isAlive (b : bool) (sk : AuthenticatedSocket)
  : AuthenticatedSocket :=
  Socket (userId sk) (groupRooms sk) b.

(** [socket.groupRooms] as it currently is. *)
Definition rooms_of (h : state) (s : sock) : list Z :=
  match heap h !! s with Some sk => groupRooms sk | None => [] end.

(** [socket.userId]; [None] is [undefined]. *)
Definition userId_of (h : state) (s : sock) : option Z :=
  userId <$> heap h !! s.

(** [joinGroupRoom(socket, groupId)] *)
Definition joinGroupRoom (s : sock) (groupId : Z) (h : state) : state :=
  let rooms1 :=
    if bool_decide (is_Some (rooms h !! groupId)) then rooms h
    else <[groupId := []]> (rooms h) in
  let rooms2 := alter (λ room, JsSet.add room s) groupId rooms1 in
  State rooms2
        (alter (set_groupRooms (λ gs, JsSet.add gs groupId)) s (heap h)).

(** [leaveGroupRoom(socket, groupId)] *)
Definition leaveGroupRoom (s : sock) (groupId : Z) (h : state) : state :=
  let rooms1 :=
    match rooms h !! groupId with
    | Some room =>
        let room1 := JsSet.delete room s in
        if JsSet.is_empty room1 then delete groupId (rooms h)
        else <[groupId := room1]> (rooms h)
    | None => rooms h
    end in
  State rooms1
        (alter (set_groupRooms (λ gs, JsSet.delete gs groupId)) s (heap h)).

(** [set.forEach(f)] on a set that lives in the state and that [f] may
    shrink while it is being walked: the entries are visited in
    insertion order, and an entry deleted before its turn is skipped.
    (No callback in this program adds to the set it is walking.) *)
Definition forEach_live {S A : Type} `{EqDecision A}
    (read : S → list A) (f : A → S → S) (st : S) : S :=
  foldl (λ st x, if bool_decide (x ∈ read st) then f x st else st)
        st (read st).

(** [handleDisconnect(socket)] for a socket whose fields are set. *)
Definition handleDisconnect (s : sock) (h : state) : state :=
  forEach_live (λ h, rooms_of h s) (λ groupId h, leaveGroupRoom s groupId h) h.

Section Broadcast.
(** [JSON.stringify] and the connections' ready states are supplied by
    the environment. *)
Context (JSON_stringify : WebSocketMessage → string).
Context (readyState : sock → ready_state).

(** [broadcastToGroup(groupId, message, excludeUserId?)];
    [excludeUserId = None] is the omitted argument.  The result is the
    list of [socket.send(payload)] calls, in order. *)
Definition broadcastToGroup (h : state) (groupId : Z)
    (message : WebSocketMessage) (excludeUserId : option Z)
  : list effect :=
  match rooms h !! groupId with
  | None => []
  | Some room =>
      let payload := JSON_stringify message in
      flat_map (λ s,
        if bool_decide (userId_of h s ≠ excludeUserId)
           && bool_decide (readyState s = OPEN)
        then [Send s payload] else []) room
  end.

(** One round of the heartbeat callback for one client.  [None] is
    the [TypeError] of [handleDisconnect] reading [groupRooms] of a
    socket whose fields were never set (its authentication failed and
    its close handshake has not finished yet). *)
Definition heartbeat_client (s : sock) (h : state)
  : option (state * list effect) :=
  match heap h !! s with
  | None => None
  | Some sk =>
      if negb (isAlive sk)
      then Some (handleDisconnect s h, [Terminate s])
      else Some (State (rooms h) (alter (set_isAlive false) s (heap h)),
                 [Send s (JSON_stringify PING)])
  end.

(** The [setInterval] callback, [wss.clients.forEach(...)]: the clients
    are visited in the order they connected; an exception leaves the
    walk where it is, with what was done so far. *)
Fixpoint heartbeat (clients : list sock) (h : state)
  : state * list effect * outcome :=
  match clients with
  | [] => (h, [], Completed)
  | s :: clients' =>
      match heartbeat_client s h with
      | None => (h, [], Threw)
      | Some (h1, e1) =>
          let '(h2, e2, o) := heartbeat clients' h1 in (h2, e1 ++ e2, o)
      end
  end.
End Broadcast.

(** Outcome of the part of the connection handler that authenticates. *)
Definition on_connection (verifyToken : string → option Z)
    (token : option string) (s : sock) (h : state) : state * list effect :=
  match token with
  | None => (h, [SendClose s 4001 "No token provided"])
  | Some t =>
      if bool_decide (t = EmptyString)
      then (h, [SendClose s 4001 "No token provided"])
      else match verifyToken t with
           | Some uid =>
               (State (rooms h) (<[s := Socket uid [] true]> (heap h)), [])
           | None => (h, [SendClose s 4001 "Invalid token"])
           end
  end.

(** [handleMessage(socket, message)]; [None] is data on which
    [JSON.parse] or the dispatch threw (caught and logged). *)
Definition handleMessage (s : sock) (message : option WebSocketMessage)
    (h : state) : state :=
  match message with
  | Some (JOIN_GROUP groupId) => joinGroupRoom s groupId h
  | Some (LEAVE_GROUP groupId) => leaveGroupRoom s groupId h
  | Some PONG => State (rooms h) (alter (set_isAlive true) s (heap h))
  | _ => h
  end.

(** [socket.on('pong', ...)] *)
Definition on_pong (s : sock) (h : state) : state :=
  State (rooms h) (alter (set_isAlive true) s (heap h)).

(** The server: the hub's own state and [wss.clients], the set of
    connections the WebSocket server currently holds (every accepted
    connection, from its connection event until its close event). *)
Record server := Server {
  hub : state;
  clients : list sock            (* Set<WebSocket>, insertion order *)
}.

Definition empty_server : server := Server empty_hub [].

(** The close event: the connection leaves [wss.clients]; the hub's own
    close handler runs [handleDisconnect] if it was registered, that is,
    if the socket had been authenticated. *)
Definition on_close (s : sock) (sv : server) : server :=
  Server (if bool_decide (is_Some (heap (hub sv) !! s))
          then handleDisconnect s (hub sv) else hub sv)
         (JsSet.delete (clients sv) s).

(** Events the server reacts to. *)
Inductive event :=
| EvConnection (s : sock) (token : option string)
| EvMessage (s : sock) (message : option WebSocketMessage)
| EvPong (s : sock)
| EvError (s : sock)
| EvClose (s : sock)
| EvHeartbeat.

Section Steps.
Context (JSON_stringify : WebSocketMessage → string).
Context (verifyToken : string → option Z).

(** One reaction of the server.  A connection event is delivered once per
    socket object; message, pong and error events only reach connected
    sockets whose handlers were registered, which happens after
    authentication.  (An exception escaping the heartbeat callback ends
    the process unless the application catches it; the relation lets the
    hub go on from what the sweep had done, which covers both.) *)
Inductive server_step : server → event → server → Prop :=
| step_connection sv s token :
    s ∉ clients sv → heap (hub sv) !! s = None →
    server_step sv (EvConnection s token)
      (Server (on_connection verifyToken token s (hub sv)).1
              (JsSet.add (clients sv) s))
| step_message sv s message :
    s ∈ clients sv → is_Some (heap (hub sv) !! s) →
    server_step sv (EvMessage s message)
      (Server (handleMessage s message (hub sv)) (clients sv))
| step_pong sv s :
    s ∈ clients sv → is_Some (heap (hub sv) !! s) →
    server_step sv (EvPong s) (Server (on_pong s (hub sv)) (clients sv))
| step_error sv s :
    s ∈ clients sv → is_Some (heap (hub sv) !! s) →
    server_step sv (EvError s)
      (Server (handleDisconnect s (hub sv)) (clients sv))
| step_close sv s :
    s ∈ clients sv →
    server_step sv (EvClose s) (on_close s sv)
| step_heartbeat sv :
    server_step sv EvHeartbeat
      (Server (heartbeat JSON_stringify (clients sv) (hub sv)).1.1
              (clients sv)).

Inductive server_steps : server → list event → server → Prop :=
| steps_nil sv : server_steps sv [] sv
| steps_cons sv1 ev sv2 evs sv3 :
    server_step sv1 ev sv2 → server_steps sv2 evs sv3 →
    server_steps sv1 (ev :: evs) sv3.

Definition reachable (sv : server) : Prop :=
  ∃ evs, server_steps empty_server evs sv.
End Steps.

(** [s] acknowledges a probe. *)
Definition is_ack (s : sock) (ev : event) : Prop :=
  ev = EvPong s ∨ ev = EvMessage s (Some PONG).

(** The session set of [Room(g)]; a room without an entry has none. *)
Definition members (h : state) (g : Z) : list sock :=
  default [] (rooms h !! g).

(** [socket.isAlive]; [None] is [undefined]. *)
Definition isAlive_of (h : state) (s : sock) : option bool :=
  isAlive <$> heap h !! s.

(** Well-formedness of the hub: no room entry is empty, the lists stand
    for sets, and room membership agrees with the sockets' own record. *)
Record hub_inv (h : state) : Prop := HubInv {
  inv_nonempty : ∀ g, rooms h !! g ≠ Some [];
  inv_room_nodup : ∀ g, NoDup (members h g);
  inv_joined_nodup : ∀ s, NoDup (rooms_of h s);
  inv_membership : ∀ s g, s ∈ members h g ↔ g ∈ rooms_of h s
}.

(** A sweep over [clients] gets as far as every client whose [isAlive] is
    [false]: each client is authenticated, or no client after it has
    [isAlive = false]. *)
Fixpoint sweep_ready (h : state) (clients : list sock) : Prop :=
  match clients with
  | [] => True
  | c :: rest =>
      (is_Some (heap h !! c) ∧ sweep_ready h rest)
      ∨ (∀ s, s ∈ rest → isAlive_of h s ≠ Some false)
  end.

Record server_inv (sv : server) : Prop := ServerInv {
  inv_hub : hub_inv (hub sv);
  inv_clients_nodup : NoDup (clients sv);
  inv_sweep_ready : sweep_ready (hub sv) (clients sv)
}.

(** Socket [s] is the same in [h'] as in [h]: same fields, in the same
    rooms. *)
Definition untouched (s : sock) (h h' : state) : Prop :=
  rooms_of h' s = rooms_of h s
  ∧ isAlive_of h' s = isAlive_of h s
  ∧ userId_of h' s = userId_of h s
  ∧ ∀ g, s ∈ members h' g ↔ s ∈ members h g.

(** [getGroupConnectionCount(groupId)]: [room ? room.size : 0] *)
Definition getGroupConnectionCount (h : state) (groupId : Z) : Z :=
  match rooms h !! groupId with
  | Some room => Z.of_nat (length room)
  | None => 0
  end.

End Hub.

(** ** Selection API ([addSelection], [removeSelection]) *)

Module Selections.
Import Shared.

(** A row of table [selections]; the table is [UNIQUE(user_id, group_id,
    act_id)], so it is a map from that triple to the rest of the row. *)
Record selection := Selection {
  sel_id : Z;
  sel_priority : Z
}.

(** The tables the two handlers read and write. *)
Record database := Database {
  users : gmap Z string;                 (* id ↦ display_name *)
  group_members : gset (Z * Z);          (* (group_id, user_id) *)
  group_acts : gset (Z * Z);             (* (act id, group_id): acts ⋈ group_events *)
  selections : gmap (Z * Z * Z) selection;  (* (user_id, group_id, act_id) *)
  last_rowid : Z
}.

(** What the handler hands to express. *)
Inductive response :=
| Json (status : Z) (data : option (Z * Z * Z * selection))
| AppError (message : string) (status : Z)
| Thrown.

(** A call [broadcastToGroup(groupId, message, excludeUserId)]. *)
Definition broadcast_call : Type := Z * WebSocketMessage * option Z.

Definition with_selections (db : database)
    (sels : gmap (Z * Z * Z) selection) (rowid : Z) : database :=
  Database (users db) (group_members db) (group_acts db) sels rowid.

(** [addSelection]: [priority = None] is a body without the field
    ([priority = 1] by the destructuring default).  The INSERT of a new
    row runs before the caller's [users] row is read and does not depend
    on it: foreign keys are not enforced on the connection the handlers
    use ([initializeDatabase] calls [save()], whose export resets the
    pragma).  Reading [display_name] of a missing row throws, after the
    insert and before [broadcastToGroup] is called; the [catch] hands the
    error to [next]. *)
Definition addSelection (db : database) (groupId userId actId : Z)
    (priority_field : option Z)
  : database * response * list broadcast_call :=
  let priority := default 1 priority_field in
  if bool_decide ((groupId, userId) ∉ group_members db)
  then (db, AppError "Not a member of this group" 403, [])
  else if bool_decide ((actId, groupId) ∉ group_acts db)
  then (db, AppError "Act is not part of any event in this group" 400, [])
  else
    match selections db !! (userId, groupId, actId) with
    | Some existing =>
        let updated := Selection (sel_id existing) priority in
        (with_selections db
           (<[(userId, groupId, actId) := updated]> (selections db))
           (last_rowid db),
         Json 200 (Some (userId, groupId, actId, updated)), [])
    | None =>
        (* INSERT INTO selections, then SELECT display_name FROM users *)
        let rowid := last_rowid db + 1 in
        let selection := Selection rowid priority in
        let db1 :=
          with_selections db
            (<[(userId, groupId, actId) := selection]> (selections db))
            rowid in
        match users db !! userId with
        | None => (db1, Thrown, [])   (* [user.display_name] of [undefined] *)
        | Some display_name =>
            (db1,
             Json 201 (Some (userId, groupId, actId, selection)),
             [(groupId,
               SELECTION_ADDED userId actId groupId display_name priority,
               Some userId)])
        end
    end.

(** [removeSelection]; [result.changes > 0] exactly when the row was
    there. *)
Definition removeSelection (db : database) (groupId userId actId : Z)
  : database * response * list broadcast_call :=
  if bool_decide ((groupId, userId) ∉ group_members db)
  then (db, AppError "Not a member of this group" 403, [])
  else
    let changes : Z :=
      if bool_decide (is_Some (selections db !! (userId, groupId, actId)))
      then 1 else 0 in
    let db1 :=
      with_selections db (delete (userId, groupId, actId) (selections db))
                      (last_rowid db) in
    (db1, Json 200 None,
     if bool_decide (0 < changes)
     then [(groupId, SELECTION_REMOVED userId actId groupId, Some userId)]
     else []).

(** The persisted set of [(userId, groupId, actId)] triples. *)
Definition triples (db : database) : gset (Z * Z * Z) := dom (selections db).

End Selections.

(** ** Playlist creation: the artists of a playlist ([createPlaylist]) *)

Module Playlists.

(** [SelectionWithActRow]: a selection joined with its act and artist. *)
Record SelectionWithActRow := SelectionWithAct {
  id : Z;
  user_id : Z;
  group_id : Z;
  act_id : Z;
  act_name : string;
  artist_spotify_id : option string       (* string | null *)
}.

(** An element of [artists]: [{ name, spotifyId }]. *)
Record artist := Artist {
  name : string;
  spotifyId : option string
}.

Definition artist_of (s : SelectionWithActRow) : artist :=
  Artist (act_name s) (artist_spotify_id s).

(** One round of the loop over [selections]:
    [if (!artistMap.has(s.act_name)) artistMap.set(s.act_name, {...})].
    [artistMap] is a [Map] keyed by act name, in insertion order. *)
Definition artistMap_step (m : list (string * artist))
    (s : SelectionWithActRow) : list (string * artist) :=
  if bool_decide (act_name s ∈ m.*1) then m
  else m ++ [(act_name s, artist_of s)].

Definition artistMap (selections : list SelectionWithActRow)
  : list (string * artist) :=
  foldl artistMap_step [] selections.

(** [Array.from(artistMap.values())] *)
Definition uniqueArtists (selections : list SelectionWithActRow)
  : list artist :=
  (artistMap selections).*2.

End Playlists.

(** ** The client's reconnection ([useWebSocket]) *)

Module Client.

(** [Math.min(1000 * Math.pow(2, reconnectAttempts.current), 30000)].
    The counter is a non-negative integer; for such an exponent the power
    of two and its product with 1000 are exact in double arithmetic (or
    infinite, where the minimum is 30000 as well), so integers suffice. *)
Definition reconnect_delay (reconnectAttempts : Z) : Z :=
  Z.min (1000 * 2 ^ reconnectAttempts) 30000.

(** [ws.onclose] with [enabled]: the delay of the retry it schedules and
    the counter it leaves ([reconnectAttempts.current++]). *)
Definition onclose (reconnectAttempts : Z) : Z * Z :=
  (reconnect_delay reconnectAttempts, reconnectAttempts + 1).

(** [ws.onopen]: [reconnectAttempts.current = 0]. *)
Definition onopen (reconnectAttempts : Z) : Z := 0.

(** The delays of [n] closes in a row, starting from the given counter. *)
Fixpoint closes (n : nat) (reconnectAttempts : Z) : list Z * Z :=
  match n with
  | O => ([], reconnectAttempts)
  | S n' =>
      let '(delay, attempts1) := onclose reconnectAttempts in
      let '(delays, attempts2) := closes n' attempts1 in
      (delay :: delays, attempts2)
  end.

End Client.

(** ** Festival times ([timeFormat.ts], [extendedTimeSchema])

    Act times are strings [HH:MM] whose hour may run to 29 for acts after
    midnight.  Strings are kept as sequences of code units; every unit this
    code tests for is an ASCII character. *)

Module TimeFormat.

Definition code (c : ascii) : Z := Z.of_N (N_of_ascii c).

(** A code unit in [[lo-hi]] (character codes). *)
Definition in_range (lo hi : Z) (c : ascii) : bool :=
  (lo <=? code c) && (code c <=? hi).

(** [[0-9]] *)
Definition is_digit (c : ascii) : bool := in_range 48 57 c.

Definition is_colon (c : ascii) : bool := code c =? 58.

(** [time.split(':')]: the pieces between the colons, as the first piece
    and the list of the others (the array is never empty). *)
Fixpoint split_colon (s : string) : string * list string :=
  match s with
  | EmptyString => (EmptyString, [])
  | String c s' =>
      let '(p, ps) := split_colon s' in
      if is_colon c then (EmptyString, p :: ps) else (String c p, ps)
  end.

Fixpoint digits_value (acc : Z) (s : string) : option Z :=
  match s with
  | EmptyString => Some acc
  | String c s' =>
      if is_digit c then digits_value (10 * acc + (code c - 48)) s'
      else None
  end.

(** [Number(s)] on the strings covered here: the empty string (0) and runs
    of at most nine decimal digits (their value).  [None]: the string is
    outside this fragment, where nothing is stated. *)
Definition ToNumber (s : string) : option Z :=
  if (9 <? String.length s)%nat then None else digits_value 0 s.

(** [parseInt(s, 10)] on runs of one to nine decimal digits. *)
Definition parseInt (s : string) : option Z :=
  match s with
  | EmptyString => None
  | _ => ToNumber s
  end.

(** A JS number that is an integer, or [NaN]. *)
Inductive number := Num (n : Z) | NaN.

(** [n.toString()] for an integer [n]. *)
Definition toString (n : Z) : string :=
  NilZero.string_of_int (Z.to_int n).

(** [s.padStart(2, '0')] *)
Definition padStart2 (s : string) : string :=
  match String.length s with
  | O => "00"
  | S O => String "0" s
  | _ => s
  end.

(** [parseTimeToMinutes]: [minutes] is [undefined] when the string has no
    colon, and the sum is [NaN] then. *)
Definition parseTimeToMinutes (time : string) : option number :=
  let '(hh, rest) := split_colon time in
  hours ← ToNumber hh;
  match rest with
  | [] => Some NaN
  | mm :: _ => minutes ← ToNumber mm; Some (Num (hours * 60 + minutes))
  end.

Inductive result := Returns (s : string) | ThrowsTypeError.

(** [formatDisplayTime]: [minutes.toString()] throws when the string has
    no colon. *)
Definition formatDisplayTime (time : string) : option result :=
  let '(hh, rest) := split_colon time in
  hours ← ToNumber hh;
  if 24 <=? hours then
    match rest with
    | [] => Some ThrowsTypeError
    | mm :: _ =>
        minutes ← ToNumber mm;
        Some (Returns (padStart2 (toString (hours - 24)) +:+ ":"
                       +:+ padStart2 (toString minutes) +:+ " (+1)"))
    end
  else Some (Returns time).

(** [extendedTimeRegex]: [/^([0-2][0-9]):([0-5][0-9])$/]. *)
Definition extendedTimeRegex (s : string) : bool :=
  match s with
  | String c1 (String c2 (String c3 (String c4 (String c5 EmptyString)))) =>
      in_range 48 50 c1 && is_digit c2 && is_colon c3
      && in_range 48 53 c4 && is_digit c5
  | _ => false
  end.

(** The refinement of [extendedTimeSchema]:
    [parseInt(time.split(':')[0], 10) <= 29]. *)
Definition hours_in_range (time : string) : option bool :=
  hours ← parseInt (split_colon time).1; Some (hours <=? 29).

(** [extendedTimeSchema]: whether a string passes; both the pattern and the
    refinement have to hold. *)
Definition extendedTimeSchema (time : string) : option bool :=
  if extendedTimeRegex time then hours_in_range time else Some false.

(** The string [c1 c2 : c4 c5] and, for digits, the minutes it stands for. *)
Definition time_of (c1 c2 c4 c5 : ascii) : string :=
  String c1 (String c2 (String ":" (String c4 (String c5 EmptyString)))).

Definition minutes_of (c1 c2 c4 c5 : ascii) : Z :=
  (10 * (code c1 - 48) + (code c2 - 48)) * 60
  + (10 * (code c4 - 48) + (code c5 - 48)).

End TimeFormat.

(** ** Sample data used in the checks below *)

Module Samples.
Import Conflicts.

Definition act_10_11 : selection_row :=
  SelectionRow 1 101 5 1 "10:00" "11:00" "Opener" "Main" "Ann".
Definition act_11_12 : selection_row :=
  SelectionRow 1 102 5 2 "11:00" "12:00" "Second" "Tent" "Ann".
Definition act_10_1130 : selection_row :=
  SelectionRow 1 103 5 1 "10:00" "11:30" "Early" "Main" "Ann".
Definition act_23_2530 : selection_row :=
  SelectionRow 1 104 5 1 "23:00" "25:30" "Late" "Main" "Ann".
Definition act_2430_26 : selection_row :=
  SelectionRow 1 105 5 2 "24:30" "26:00" "Later" "Tent" "Ann".
(** The 11:00 act of [act_11_12], on another day and for another user. *)
Definition act_11_12_day6 : selection_row :=
  SelectionRow 1 106 6 2 "11:00" "12:00" "Second" "Tent" "Ann".
Definition act_11_12_bob : selection_row :=
  SelectionRow 2 102 5 2 "11:00" "12:00" "Second" "Tent" "Bob".

Import Shared Hub.

(** Stand-ins for [JSON.stringify], [verifyToken] and the connections'
    ready states. *)
Definition stringify (m : WebSocketMessage) : string :=
  match m with
  | SELECTION_ADDED _ _ _ _ _ => "SELECTION_ADDED"
  | SELECTION_REMOVED _ _ _ => "SELECTION_REMOVED"
  | MEMBER_JOINED _ _ => "MEMBER_JOINED"
  | MEMBER_LEFT _ _ => "MEMBER_LEFT"
  | JOIN_GROUP _ => "JOIN_GROUP"
  | LEAVE_GROUP _ => "LEAVE_GROUP"
  | PING => "PING"
  | PONG => "PONG"
  end.

Definition verify (t : string) : option Z :=
  if bool_decide (t = "token-ann") then Some 1
  else if bool_decide (t = "token-bob") then Some 2
  else None.

Definition all_open (s : sock) : ready_state := OPEN.

(** Ann (socket 1) and Bob (socket 2) connect and join room 42. *)
Definition sA : sock := 1%positive.
Definition sB : sock := 2%positive.
Definition hub_connected : state :=
  (on_connection verify (Some "token-bob") sB
     (on_connection verify (Some "token-ann") sA empty_hub).1).1.
Definition hub_ann_in_42 : state :=
  handleMessage sA (Some (JOIN_GROUP 42)) hub_connected.
Definition hub_both_in_42 : state :=
  handleMessage sB (Some (JOIN_GROUP 42)) hub_ann_in_42.

(** The same as server states: both sockets are in [wss.clients]. *)
Definition srv_connected : server := Server hub_connected [sA; sB].
Definition srv_ann_in_42 : server := Server hub_ann_in_42 [sA; sB].
Definition srv_both_in_42 : server := Server hub_both_in_42 [sA; sB].

(** A sweep probes both, Bob alone acknowledges, and a third connection
    arrives without a token (it is sent a close and stays in
    [wss.clients] until its close handshake ends). *)
Definition sU : sock := 3%positive.
Definition srv_probed : server :=
  Server (heartbeat stringify [sA; sB] hub_both_in_42).1.1 [sA; sB].
Definition srv_bob_acked : server :=
  Server (on_pong sB (hub srv_probed)) [sA; sB].
Definition srv_with_guest : server :=
  Server (on_connection verify None sU (hub srv_bob_acked)).1 [sA; sB; sU].

(** Bob answers a probe with the PONG message. *)
Definition srv_bob_ponged : server :=
  Server (handleMessage sB (Some PONG) (hub srv_probed)) [sA; sB].

Import Selections.

(** Ann and Bob are members of group 42, whose event has acts 7 and 8;
    Ann has selected act 7. *)
Definition db0 : database :=
  Database {[1 := "Ann"; 2 := "Bob"]}
           {[(42, 1); (42, 2)]}
           {[(7, 42); (8, 42)]}
           {[(1, 42, 7) := Selection 1 1]}
           1.

(** [db0] with a third member of group 42 who has no row in [users]. *)
Definition db_no_user : database :=
  Database {[1 := "Ann"; 2 := "Bob"]}
           {[(42, 1); (42, 2); (42, 3)]}
           {[(7, 42); (8, 42)]}
           {[(1, 42, 7) := Selection 1 1]}
           1.

Import Playlists.

(** Three selections of two acts; the second [Opener] row carries another
    Spotify id. *)
Definition sel_rows : list SelectionWithActRow :=
  [ SelectionWithAct 1 1 42 101 "Opener" (Some "sp1");
    SelectionWithAct 2 2 42 102 "Second" None;
    SelectionWithAct 3 2 42 101 "Opener" (Some "sp9") ].

End Samples.

(** * Properties *)

(** ** Lists: position pairs and grouping by a key *)

Section PairsByKey.
Context {A B : Type}.

Lemma flat_map_fmap_l (f : B → list A) {C : Type} (g : C → B) (l : list C) :
  flat_map f (g <$> l) = flat_map (λ x, f (g x)) l.
Proof. induction l as [|x l IH]; csimpl; [done | by rewrite IH]. Qed.

Lemma flat_map_fmap_r {C : Type} (h : A → C) (f : B → list A) (l : list B) :
  flat_map (λ x, h <$> f x) l = h <$> flat_map f l.
Proof.
  induction l as [|x l IH]; csimpl; [done |].
  by rewrite IH, fmap_app.
Qed.

Lemma flat_map_perm_ext (f g : B → list A) (l : list B) :
  (∀ x, x ∈ l → f x ≡ₚ g x) → flat_map f l ≡ₚ flat_map g l.
Proof.
  induction l as [|x l IH]; intros Hfg; simpl; [done |].
  rewrite (Hfg x) by left. rewrite IH; [done |].
  intros y Hy. apply Hfg. by right.
Qed.

Lemma flat_map_app_perm (f g : B → list A) (l : list B) :
  flat_map (λ x, f x ++ g x) l ≡ₚ flat_map f l ++ flat_map g l.
Proof.
  induction l as [|x l IH]; simpl; [done |].
  rewrite IH. rewrite <- !(assoc_L (++)). f_equiv.
  rewrite !(assoc_L (++)). f_equiv. apply Permutation_app_comm.
Qed.

Lemma flat_map_nil_all (f : B → list A) (l : list B) :
  (∀ x, x ∈ l → f x = []) → flat_map f l = [].
Proof.
  induction l as [|x l IH]; intros Hf; simpl; [done |].
  rewrite (Hf x) by left. apply IH. intros y Hy. apply Hf. by right.
Qed.

Lemma flat_map_only `{EqDecision B} (E : B → list A) (k0 : B) (l : list B) :
  NoDup l → k0 ∈ l →
  flat_map (λ k, if decide (k0 = k) then E k else []) l = E k0.
Proof.
  induction l as [|x l IH]; intros Hnd Hin; [by inversion Hin |].
  apply NoDup_cons in Hnd as [Hx Hnd]. simpl.
  destruct (decide (k0 = x)) as [->|Hne].
  - rewrite flat_map_nil_all; [by rewrite app_nil_r |].
    intros y Hy. destruct (decide (x = y)) as [->|]; done.
  - apply elem_of_cons in Hin as [?|Hin]; [done |]. by apply IH.
Qed.

Lemma elem_of_ordered_pairs (p : A * A) (l : list A) :
  p ∈ Conflicts.ordered_pairs l → p.1 ∈ l ∧ p.2 ∈ l.
Proof.
  induction l as [|x l IH]; simpl; [by inversion 1 |].
  intros [Hp|Hp]%elem_of_app.
  - apply list_elem_of_fmap in Hp as (y & -> & Hy). simpl.
    split; [left | by right].
  - destruct (IH Hp). split; by right.
Qed.
End PairsByKey.

Section Grouping.
Context {A : Type} (key : A → Z).

(** The pairs found inside the groups are the pairs of the whole list
    whose two members carry the same key. *)
Lemma pairs_by_key (Q : A * A → Prop) `{!∀ p, Decision (Q p)}
    (ks : list Z) (l : list A) :
  NoDup ks → (∀ x, x ∈ l → key x ∈ ks) →
  flat_map (λ k, filter Q (Conflicts.ordered_pairs
                             (filter (λ x, key x = k) l))) ks
  ≡ₚ filter (λ p, key p.1 = key p.2 ∧ Q p) (Conflicts.ordered_pairs l).
Proof.
  intros Hnd. induction l as [|x l IH]; intros Hcov.
  - simpl. rewrite flat_map_nil_all; done.
  - assert (Hx : key x ∈ ks) by (apply Hcov; left).
    assert (Hl : ∀ y, y ∈ l → key y ∈ ks) by (intros y Hy; apply Hcov; by right).
    simpl Conflicts.ordered_pairs. rewrite filter_app, <- (IH Hl).
    rewrite (flat_map_ext _
      (λ k, (if decide (key x = k)
             then filter Q ((λ y, (x, y)) <$> filter (λ y, key y = k) l)
             else [])
            ++ filter Q (Conflicts.ordered_pairs (filter (λ y, key y = k) l)))).
    2:{ intros k. rewrite filter_cons.
        destruct (decide (key x = k)); [|done].
        simpl. by rewrite filter_app. }
    rewrite flat_map_app_perm. f_equiv.
    rewrite (flat_map_only
               (λ k, filter Q ((λ y, (x, y)) <$> filter (λ y, key y = k) l)))
      by done.
    clear. induction l as [|y l IH]; [done |].
    rewrite fmap_cons, !filter_cons. simpl.
    destruct (decide (key y = key x)) as [Heq|Hne].
    + rewrite fmap_cons, filter_cons. simpl.
      destruct (decide (Q (x, y))).
      * rewrite decide_True by done. by rewrite IH.
      * rewrite decide_False by tauto. by rewrite IH.
    + rewrite decide_False by (intros [? _]; congruence). by rewrite IH.
Qed.
End Grouping.


Section ConflictDetector.
Import Conflicts Samples.

Lemma scan_later_pairs uid dayId a rest :
  scan_later uid dayId a rest
  = (λ p, mk_conflict uid dayId p.1 p.2)
      <$> filter (λ p, overlaps p.1 p.2 = true) ((λ y, (a, y)) <$> rest).
Proof.
  induction rest as [|b rest IH]; [done |].
  simpl scan_later. rewrite fmap_cons, filter_cons. simpl.
  destruct (overlaps a b) eqn:Hab.
  - rewrite decide_True by done. by rewrite IH.
  - rewrite decide_False by done. by rewrite IH.
Qed.

Lemma day_conflicts_pairs uid dayId daySels :
  day_conflicts uid dayId daySels
  = (λ p, mk_conflict uid dayId p.1 p.2)
      <$> filter (λ p, overlaps p.1 p.2 = true) (ordered_pairs daySels).
Proof.
  induction daySels as [|a rest IH]; [done |].
  simpl. by rewrite scan_later_pairs, IH, filter_app, fmap_app.
Qed.

Lemma filter_none {A : Type} (P : A → Prop) `{!∀ x, Decision (P x)}
    (l : list A) :
  (∀ x, x ∈ l → ¬ P x) → filter P l = [].
Proof.
  induction l as [|x l IH]; intros HP; [done |].
  rewrite filter_cons_False by (apply HP; left).
  apply IH. intros y Hy. apply HP. by right.
Qed.

Lemma groups_of_keys {A : Type} (key : A → Z) ks (l : list A) :
  (groups_of key ks l).*1 = ks.
Proof.
  unfold groups_of. rewrite <- list_fmap_compose.
  induction ks as [|k ks IH]; csimpl; [done | by rewrite IH].
Qed.

Lemma push_groups_of (key : selection_row → Z) ks l x :
  JsMap.push (groups_of key ks l) (key x) x
  = groups_of key ks (l ++ [x]).
Proof.
  unfold JsMap.push, groups_of. rewrite <- list_fmap_compose.
  apply list_fmap_ext. intros _ k _. simpl.
  rewrite filter_app, filter_cons, filter_nil.
  case_bool_decide; destruct (decide (key x = k)); try done; try congruence.
  by rewrite app_nil_r.
Qed.

Lemma group_step_groups_of (key : selection_row → Z) ks l x :
  (∀ y, y ∈ l → key y ∈ ks) →
  group_step key (groups_of key ks l) x
  = groups_of key (JsSet.add ks (key x)) (l ++ [x]).
Proof.
  intros Hcov. unfold group_step, JsMap.set, JsMap.has, JsSet.add.
  rewrite !groups_of_keys.
  case_bool_decide as Hk; simpl.
  - apply push_groups_of.
  - replace (groups_of key ks l ++ [(key x, [])])
      with (groups_of key (ks ++ [key x]) l).
    + apply push_groups_of.
    + unfold groups_of. rewrite fmap_app. simpl. do 3 f_equal.
      apply filter_none. intros y Hy Heq. apply Hk. rewrite <- Heq. auto.
Qed.

Lemma JsSet_add_NoDup `{EqDecision A} (s : list A) (x : A) :
  NoDup s → NoDup (JsSet.add s x).
Proof.
  intros Hnd. unfold JsSet.add. case_bool_decide; [done |].
  apply NoDup_app. split_and!; [done | | apply NoDup_singleton].
  intros y Hy ->%list_elem_of_singleton. done.
Qed.

Lemma elem_of_JsSet_add `{EqDecision A} (s : list A) (x y : A) :
  y ∈ JsSet.add s x ↔ y = x ∨ y ∈ s.
Proof.
  unfold JsSet.add. case_bool_decide.
  - split; [auto | intros [->|]; done].
  - rewrite elem_of_app, list_elem_of_singleton. tauto.
Qed.

(** [group_by] keeps one entry per key that occurs, holding the rows with
    that key in their input order. *)
Lemma group_by_groups_of (key : selection_row → Z) sels :
  ∃ ks, NoDup ks ∧ (∀ y, y ∈ sels → key y ∈ ks)
        ∧ group_by key sels = groups_of key ks sels.
Proof.
  unfold group_by.
  cut (∀ l ks l0, NoDup ks → (∀ y, y ∈ l0 → key y ∈ ks) →
         ∃ ks', NoDup ks' ∧ (∀ y, y ∈ l0 ++ l → key y ∈ ks')
                ∧ foldl (group_step key) (groups_of key ks l0) l
                  = groups_of key ks' (l0 ++ l)).
  { intros H. destruct (H sels [] []) as (ks & ? & ? & ?);
      [constructor | by inversion 1 | by exists ks]. }
  induction l as [|x l IH]; intros ks l0 Hnd Hcov.
  - exists ks. rewrite app_nil_r. done.
  - simpl. rewrite group_step_groups_of by done.
    destruct (IH (JsSet.add ks (key x)) (l0 ++ [x])) as (ks' & ? & ? & Heq).
    + by apply JsSet_add_NoDup.
    + intros y [Hy| ->%list_elem_of_singleton]%elem_of_app;
        apply elem_of_JsSet_add; auto.
    + exists ks'. rewrite <- (assoc_L (++)) in *. done.
Qed.

Lemma str_lt_irrefl (x : string) : str_lt x x = false.
Proof.
  unfold str_lt, String.ltb.
  pose proof (String.compare_antisym x x) as H.
  destruct (String.compare x x); simpl in H; congruence.
Qed.

Lemma mk_conflict_in_group uid dayId (g : list selection_row) :
  (∀ x, x ∈ g → user_id x = uid ∧ day_id x = dayId) →
  day_conflicts uid dayId g
  = conflict_of <$> filter (λ p, overlaps p.1 p.2 = true) (ordered_pairs g).
Proof.
  intros Hg. rewrite day_conflicts_pairs. apply list_fmap_ext.
  intros _ p [_ Hp]%list_elem_of_lookup_2%list_elem_of_filter.
  apply elem_of_ordered_pairs in Hp as [H1 _].
  destruct (Hg _ H1) as [<- <-]. done.
Qed.

Lemma user_conflicts_perm uid (sels : list selection_row) :
  (∀ x, x ∈ sels → user_id x = uid) →
  user_conflicts uid sels
  ≡ₚ conflict_of
       <$> filter (λ p, day_id p.1 = day_id p.2 ∧ overlaps p.1 p.2 = true)
                  (ordered_pairs sels).
Proof.
  intros Hu. unfold user_conflicts.
  destruct (group_by_groups_of day_id sels) as (ds & Hnd & Hcov & ->).
  unfold groups_of. rewrite flat_map_fmap_l. simpl.
  rewrite <- (pairs_by_key day_id (λ p, overlaps p.1 p.2 = true) ds sels)
    by done.
  rewrite <- flat_map_fmap_r. apply flat_map_perm_ext. intros d _.
  rewrite mk_conflict_in_group; [done |].
  intros x [? ?]%list_elem_of_filter. auto.
Qed.

(** The detector's output is, up to order, one record per position pair
    of the input that satisfies the conflict condition. *)
Lemma detectConflicts_perm (sels : list selection_row) :
  detectConflicts sels
  ≡ₚ conflict_of <$> filter is_conflict (ordered_pairs sels).
Proof.
  unfold detectConflicts.
  destruct (group_by_groups_of user_id sels) as (us & Hnd & Hcov & ->).
  unfold groups_of. rewrite flat_map_fmap_l. simpl.
  rewrite (list_filter_iff is_conflict
    (λ p, user_id p.1 = user_id p.2
          ∧ (day_id p.1 = day_id p.2 ∧ overlaps p.1 p.2 = true))).
  2:{ intros p. unfold is_conflict, overlaps, str_lt.
      rewrite andb_true_iff. tauto. }
  rewrite <- (pairs_by_key user_id _ us sels) by done.
  rewrite <- flat_map_fmap_r. apply flat_map_perm_ext. intros u _.
  apply user_conflicts_perm. by intros x [? ?]%list_elem_of_filter.
Qed.

(** C1. [getConflicts] reports, for every pair of positions [i < j] of the
    selection list whose rows have the same user and the same day, a
    conflict exactly when [a.startTime < b.endTime] and
    [b.startTime < a.endTime] in the lexical order of the time strings;
    each such pair gives exactly one record, with the earlier row's act
    first (the output is a permutation of those records): the record
    carries the user id, the earlier row's display name, the day id and,
    for the earlier act and then the later one, its id, name, stage id,
    stage name, start time and end time.  Two rows with
    [a.endTime = b.startTime] never form a conflict, in either order. *)
Theorem detectConflicts_overlapping_pairs :
  (∀ sels : list selection_row,
     detectConflicts sels
     ≡ₚ (λ p, Conflict (user_id p.1) (display_name p.1) (day_id p.1)
                       (ActRef (act_id p.1) (act_name p.1)
                               (stage_id p.1) (stage_name p.1)
                               (start_time p.1) (end_time p.1),
                        ActRef (act_id p.2) (act_name p.2)
                               (stage_id p.2) (stage_name p.2)
                               (start_time p.2) (end_time p.2)))
        <$> filter (λ p, user_id p.1 = user_id p.2 ∧ day_id p.1 = day_id p.2 ∧
                         String.ltb (start_time p.1) (end_time p.2) = true ∧
                         String.ltb (start_time p.2) (end_time p.1) = true)
                   (ordered_pairs sels))
  ∧ (∀ a b : selection_row,
       end_time a = start_time b →
       overlaps a b = false ∧ overlaps b a = false
       ∧ detectConflicts [a; b] = [] ∧ detectConflicts [b; a] = []).
Proof.
  split; [exact detectConflicts_perm |].
  intros a b Hab.
  assert (H1 : overlaps a b = false).
  { unfold overlaps. rewrite Hab, str_lt_irrefl. apply andb_false_r. }
  assert (H2 : overlaps b a = false).
  { unfold overlaps. rewrite Hab, str_lt_irrefl. done. }
  split_and!; [done | done | |].
  - apply Permutation_nil_r. rewrite detectConflicts_perm. simpl.
    rewrite filter_cons_False; [done |].
    unfold is_conflict. simpl. unfold overlaps, str_lt in H1.
    apply andb_false_iff in H1. intros (_ & _ & ? & ?).
    destruct H1; congruence.
  - apply Permutation_nil_r. rewrite detectConflicts_perm. simpl.
    rewrite filter_cons_False; [done |].
    unfold is_conflict. simpl. unfold overlaps, str_lt in H2.
    apply andb_false_iff in H2. intros (_ & _ & ? & ?).
    destruct H2; congruence.
Qed.

Lemma detectConflicts_overlapping_pairs_witness :
  detectConflicts [act_11_12_bob; act_2430_26; act_10_1130; act_11_12;
                   act_23_2530]
  ≡ₚ [Conflict 1 "Ann" 5 (ActRef 105 "Later" 2 "Tent" "24:30" "26:00",
                          ActRef 104 "Late" 1 "Main" "23:00" "25:30");
      Conflict 1 "Ann" 5 (ActRef 103 "Early" 1 "Main" "10:00" "11:30",
                          ActRef 102 "Second" 2 "Tent" "11:00" "12:00")]
  ∧ overlaps act_10_11 act_11_12 = false
  ∧ overlaps act_11_12 act_10_11 = false
  ∧ detectConflicts [act_10_11; act_11_12] = []
  ∧ detectConflicts [act_11_12; act_10_11] = [].
Proof.
  split.
  - exact (proj1 detectConflicts_overlapping_pairs
             [act_11_12_bob; act_2430_26; act_10_1130; act_11_12;
              act_23_2530]).
  - apply (proj2 detectConflicts_overlapping_pairs act_10_11 act_11_12).
    reflexivity.
Defined.

(** The specification's overlap and extended-hours scenarios. *)
Example detectConflicts_overlap :
  detectConflicts [act_10_1130; act_11_12]
  = [Conflict 1 "Ann" 5 (ActRef 103 "Early" 1 "Main" "10:00" "11:30",
                         ActRef 102 "Second" 2 "Tent" "11:00" "12:00")].
Proof. reflexivity. Qed.

Example detectConflicts_extended_hours :
  detectConflicts [act_23_2530; act_2430_26]
  = [Conflict 1 "Ann" 5 (ActRef 104 "Late" 1 "Main" "23:00" "25:30",
                         ActRef 105 "Later" 2 "Tent" "24:30" "26:00")].
Proof. reflexivity. Qed.

(** C2. Every conflict [getConflicts] produces comes from two rows of the
    input, at positions [i < j], that both carry the conflict's [userId]
    and its [dayId]; and when no two rows of the input share both user
    and day, nothing is reported, whatever the time windows are. *)
Theorem detectConflicts_same_user_same_day (sels : list selection_row) :
  (∀ c, c ∈ detectConflicts sels →
     ∃ a b, (a, b) ∈ ordered_pairs sels
            ∧ user_id a = userId c ∧ user_id b = userId c
            ∧ day_id a = dayId c ∧ day_id b = dayId c
            ∧ acts c = (act_of a, act_of b))
  ∧ ((∀ p, p ∈ ordered_pairs sels →
        user_id p.1 ≠ user_id p.2 ∨ day_id p.1 ≠ day_id p.2) →
     detectConflicts sels = []).
Proof.
  split.
  - intros c Hc. rewrite detectConflicts_perm in Hc.
    apply list_elem_of_fmap in Hc as ([a b] & -> & Hp).
    apply list_elem_of_filter in Hp as [(Hu & Hd & _) Hp]. simpl in *.
    exists a, b. split_and!; done.
  - intros Hiso. apply Permutation_nil_r. rewrite detectConflicts_perm.
    rewrite filter_none; [done |].
    intros p Hp (Hu & Hd & _). destruct (Hiso p Hp); done.
Qed.

Lemma detectConflicts_same_user_same_day_witness :
  overlaps act_10_1130 act_11_12_bob = true
  ∧ overlaps act_10_1130 act_11_12_day6 = true
  ∧ detectConflicts [act_10_1130; act_11_12_bob; act_11_12_day6] = [].
Proof.
  split_and!; [reflexivity | reflexivity |].
  apply (proj2 (detectConflicts_same_user_same_day
                  [act_10_1130; act_11_12_bob; act_11_12_day6])).
  intros p Hp. vm_compute in Hp.
  repeat (apply elem_of_cons in Hp as [->|Hp]; [vm_compute; auto |]);
    try (right; discriminate); try (left; discriminate).
  by apply elem_of_nil in Hp.
Defined.

End ConflictDetector.

(** ** The room hub *)

Section JsSetFacts.
Context `{EqDecision A}.
Implicit Types (s : list A) (x y : A).

Lemma elem_of_JsSet_delete s x y : y ∈ JsSet.delete s x ↔ y ≠ x ∧ y ∈ s.
Proof. unfold JsSet.delete. by rewrite list_elem_of_filter. Qed.

Lemma JsSet_delete_NoDup s x : NoDup s → NoDup (JsSet.delete s x).
Proof. unfold JsSet.delete. apply NoDup_filter. Qed.

Lemma JsSet_delete_absent s x : x ∉ s → JsSet.delete s x = s.
Proof.
  intros Hx. unfold JsSet.delete.
  induction s as [|y s IH]; [done |].
  apply not_elem_of_cons in Hx as [Hne Hx].
  rewrite filter_cons_True by done. by rewrite IH.
Qed.

Lemma JsSet_add_present s x : x ∈ s → JsSet.add s x = s.
Proof. intros Hx. unfold JsSet.add. by rewrite bool_decide_true. Qed.

Lemma JsSet_add_add s x : JsSet.add (JsSet.add s x) x = JsSet.add s x.
Proof. apply JsSet_add_present. apply elem_of_JsSet_add. by left. Qed.

Lemma JsSet_is_empty_nil s : JsSet.is_empty s = true ↔ s = [].
Proof. destruct s; simpl; split; done. Qed.
End JsSetFacts.

Section HubViews.
Import Hub.
Implicit Types (h : state) (s : sock) (g : Z).


(** *** [joinGroupRoom] seen through [members], [rooms_of], [heap] *)

Lemma join_rooms_lookup s g h g' :
  rooms (joinGroupRoom s g h) !! g'
  = if decide (g = g') then Some (JsSet.add (members h g) s)
    else rooms h !! g'.
Proof.
  unfold joinGroupRoom, members. simpl. rewrite lookup_alter.
  destruct (decide (g = g')) as [<-|Hne].
  - case_bool_decide as Hg.
    + destruct Hg as [room ->]. done.
    + rewrite lookup_insert_eq. simpl.
      apply eq_None_not_Some in Hg. by rewrite Hg.
  - case_bool_decide; [done |]. by rewrite lookup_insert_ne.
Qed.

Lemma join_members s g h g' :
  members (joinGroupRoom s g h) g'
  = if decide (g = g') then JsSet.add (members h g) s else members h g'.
Proof.
  unfold members at 1. rewrite join_rooms_lookup. by destruct (decide _).
Qed.

Lemma join_rooms_of s g h s' :
  is_Some (heap h !! s) →
  rooms_of (joinGroupRoom s g h) s'
  = if decide (s = s') then JsSet.add (rooms_of h s) g else rooms_of h s'.
Proof.
  intros [sk Hsk]. unfold rooms_of, joinGroupRoom. simpl.
  rewrite lookup_alter. destruct (decide (s = s')) as [<-|]; [|done].
  by rewrite Hsk.
Qed.

Lemma join_heap_is_Some s g h s' :
  is_Some (heap (joinGroupRoom s g h) !! s') ↔ is_Some (heap h !! s').
Proof. apply lookup_alter_is_Some. Qed.

Lemma join_isAlive_of s g h s' :
  isAlive_of (joinGroupRoom s g h) s' = isAlive_of h s'.
Proof.
  unfold isAlive_of, joinGroupRoom. simpl. rewrite lookup_alter.
  destruct (decide (s = s')) as [<-|]; [|done].
  by destruct (heap h !! s).
Qed.

(** *** [leaveGroupRoom] *)

Lemma leave_rooms_lookup s g h g' :
  rooms (leaveGroupRoom s g h) !! g'
  = if decide (g = g')
    then match rooms h !! g with
         | Some room =>
             if JsSet.is_empty (JsSet.delete room s) then None
             else Some (JsSet.delete room s)
         | None => None
         end
    else rooms h !! g'.
Proof.
  unfold leaveGroupRoom. simpl.
  destruct (rooms h !! g) as [room|] eqn:Hg.
  - destruct (JsSet.is_empty (JsSet.delete room s)).
    + by rewrite lookup_delete.
    + by rewrite lookup_insert.
  - destruct (decide (g = g')) as [<-|]; done.
Qed.

Lemma leave_members s g h g' :
  members (leaveGroupRoom s g h) g'
  = if decide (g = g') then JsSet.delete (members h g) s else members h g'.
Proof.
  unfold members at 1. rewrite leave_rooms_lookup.
  destruct (decide (g = g')) as [<-|]; [|done].
  unfold members. destruct (rooms h !! g) as [room|]; [|done]. simpl.
  destruct (JsSet.is_empty (JsSet.delete room s)) eqn:He; [|done].
  apply JsSet_is_empty_nil in He. by rewrite He.
Qed.

Lemma leave_rooms_of s g h s' :
  rooms_of (leaveGroupRoom s g h) s'
  = if decide (s = s') then JsSet.delete (rooms_of h s) g else rooms_of h s'.
Proof.
  unfold rooms_of, leaveGroupRoom. simpl.
  rewrite lookup_alter. destruct (decide (s = s')) as [<-|]; [|done].
  by destruct (heap h !! s).
Qed.

Lemma leave_heap_is_Some s g h s' :
  is_Some (heap (leaveGroupRoom s g h) !! s') ↔ is_Some (heap h !! s').
Proof. apply lookup_alter_is_Some. Qed.

Lemma leave_isAlive_of s g h s' :
  isAlive_of (leaveGroupRoom s g h) s' = isAlive_of h s'.
Proof.
  unfold isAlive_of, leaveGroupRoom. simpl. rewrite lookup_alter.
  destruct (decide (s = s')) as [<-|]; [|done].
  by destruct (heap h !! s).
Qed.

Lemma leave_userId_of s g h s' :
  userId_of (leaveGroupRoom s g h) s' = userId_of h s'.
Proof.
  unfold userId_of, leaveGroupRoom. simpl. rewrite lookup_alter.
  destruct (decide (s = s')) as [<-|]; [|done].
  by destruct (heap h !! s).
Qed.

End HubViews.

Section HubInvariant.
Import Hub.
Implicit Types (h : state) (s : sock) (g : Z).

Lemma empty_hub_inv : hub_inv empty_hub.
Proof.
  split; unfold members, rooms_of; simpl.
  - intros g. by rewrite lookup_empty.
  - intros g. rewrite lookup_empty. constructor.
  - intros s. rewrite lookup_empty. constructor.
  - intros s g. rewrite !lookup_empty. simpl. split; by intros ?%elem_of_nil.
Qed.

Lemma join_inv s g h :
  is_Some (heap h !! s) → hub_inv h → hub_inv (joinGroupRoom s g h).
Proof.
  intros Hs [Hne Hrn Hjn Hm]. split.
  - intros g'. rewrite join_rooms_lookup.
    destruct (decide (g = g')) as [<-|]; [|done].
    intros [=Heq]. assert (s ∈ JsSet.add (members h g) s) as Hin
      by (apply elem_of_JsSet_add; by left).
    rewrite Heq in Hin. by apply elem_of_nil in Hin.
  - intros g'. rewrite join_members.
    destruct (decide (g = g')); [by apply JsSet_add_NoDup | done].
  - intros s'. rewrite join_rooms_of by done.
    destruct (decide (s = s')); [by apply JsSet_add_NoDup | done].
  - intros s' g'. specialize (Hm s' g').
    rewrite join_members, join_rooms_of by done.
    destruct (decide (g = g')) as [<-|Hg], (decide (s = s')) as [<-|Hs'];
      rewrite ?elem_of_JsSet_add; intuition congruence.
Qed.

Lemma leave_inv s g h : hub_inv h → hub_inv (leaveGroupRoom s g h).
Proof.
  intros [Hne Hrn Hjn Hm]. split.
  - intros g'. rewrite leave_rooms_lookup.
    destruct (decide (g = g')) as [<-|]; [|done].
    destruct (rooms h !! g) as [room|]; [|done].
    destruct (JsSet.is_empty (JsSet.delete room s)) eqn:He; [done |].
    intros [=Heq]. rewrite Heq in He. done.
  - intros g'. rewrite leave_members.
    destruct (decide (g = g')); [by apply JsSet_delete_NoDup | done].
  - intros s'. rewrite leave_rooms_of.
    destruct (decide (s = s')); [by apply JsSet_delete_NoDup | done].
  - intros s' g'. specialize (Hm s' g').
    rewrite leave_members, leave_rooms_of.
    destruct (decide (g = g')) as [<-|Hg], (decide (s = s')) as [<-|Hs'];
      rewrite ?elem_of_JsSet_delete; intuition congruence.
Qed.

(** Fields other than the room bookkeeping do not matter to [hub_inv]. *)
Lemma hub_inv_same_rooms h h' :
  rooms h' = rooms h → (∀ s, rooms_of h' s = rooms_of h s) →
  hub_inv h → hub_inv h'.
Proof.
  intros Hr Hro [Hne Hrn Hjn Hm].
  split; unfold members in *; intros; rewrite ?Hr, ?Hro; auto.
Qed.

(** *** [handleDisconnect]: the walk over the live set *)

(** The walk without the liveness test. *)
Lemma forEach_leave_all s (l : list Z) h :
  NoDup l → (∀ g, g ∈ l → g ∈ rooms_of h s) →
  foldl (λ st x, if bool_decide (x ∈ rooms_of st s)
                 then leaveGroupRoom s x st else st) h l
  = foldl (λ st x, leaveGroupRoom s x st) h l.
Proof.
  revert h. induction l as [|g l IH]; intros h Hnd Hin; [done |].
  apply NoDup_cons in Hnd as [Hg Hnd]. simpl.
  rewrite bool_decide_true by (apply Hin; left).
  apply IH; [done |]. intros g' Hg'.
  rewrite leave_rooms_of. destruct (decide (s = s)); [|done].
  apply elem_of_JsSet_delete. split; [by intros -> | apply Hin; by right].
Qed.

Lemma leave_all_rooms_of s (l : list Z) h s' :
  rooms_of (foldl (λ st x, leaveGroupRoom s x st) h l) s'
  = if decide (s = s') then filter (λ g, g ∉ l) (rooms_of h s)
    else rooms_of h s'.
Proof.
  revert h. induction l as [|g l IH]; intros h; simpl.
  - destruct (decide (s = s')) as [<-|]; [|done].
    symmetry. induction (rooms_of h s) as [|x r IHr]; [done |].
    rewrite filter_cons_True by apply not_elem_of_nil. by rewrite IHr.
  - rewrite IH, !leave_rooms_of. destruct (decide (s = s')) as [<-|]; [|done].
    rewrite decide_True by done. unfold JsSet.delete.
    rewrite list_filter_filter. apply list_filter_iff. intros x.
    rewrite not_elem_of_cons. tauto.
Qed.


Lemma handleDisconnect_leave_all s h :
  hub_inv h →
  handleDisconnect s h
  = foldl (λ st x, leaveGroupRoom s x st) h (rooms_of h s).
Proof.
  intros Hinv. unfold handleDisconnect, forEach_live.
  apply forEach_leave_all; [apply Hinv | done].
Qed.

Lemma leave_all_inv s (l : list Z) h :
  hub_inv h → hub_inv (foldl (λ st x, leaveGroupRoom s x st) h l).
Proof.
  revert h. induction l as [|g l IH]; intros h Hinv; [done |].
  simpl. by apply IH, leave_inv.
Qed.

Lemma handleDisconnect_inv s h : hub_inv h → hub_inv (handleDisconnect s h).
Proof.
  intros Hinv. rewrite handleDisconnect_leave_all by done.
  by apply leave_all_inv.
Qed.

Lemma handleDisconnect_rooms_of s h s' :
  hub_inv h →
  rooms_of (handleDisconnect s h) s'
  = if decide (s = s') then [] else rooms_of h s'.
Proof.
  intros Hinv. rewrite handleDisconnect_leave_all, leave_all_rooms_of by done.
  destruct (decide (s = s')); [|done].
  apply filter_none. intros g Hg. by intros Hn.
Qed.


End HubInvariant.

Section HubSteps.
Import Shared Hub.
Context (JSON_stringify : WebSocketMessage → string).
Context (verifyToken : string → option Z).
Implicit Types (h : state) (s c : sock) (g : Z).

(** Whatever every [leaveGroupRoom] preserves, [handleDisconnect]
    preserves. *)
Lemma handleDisconnect_preserves (P : state → Prop) s h :
  (∀ g h', P h' → P (leaveGroupRoom s g h')) → P h → P (handleDisconnect s h).
Proof.
  intros Hleave. unfold handleDisconnect, forEach_live.
  generalize (rooms_of h s) as l. intros l. revert h.
  induction l as [|g l IH]; intros h Hh; [done |].
  simpl. apply IH. case_bool_decide; auto.
Qed.

Lemma handleDisconnect_isAlive_of s h s' :
  isAlive_of (handleDisconnect s h) s' = isAlive_of h s'.
Proof.
  apply (handleDisconnect_preserves (λ h', isAlive_of h' s' = isAlive_of h s'));
    [|done].
  intros g h' <-. apply leave_isAlive_of.
Qed.

Lemma handleDisconnect_heap_is_Some s h s' :
  is_Some (heap (handleDisconnect s h) !! s') ↔ is_Some (heap h !! s').
Proof.
  apply (handleDisconnect_preserves
           (λ h', is_Some (heap h' !! s') ↔ is_Some (heap h !! s'))); [|done].
  intros g h' <-. apply leave_heap_is_Some.
Qed.

Lemma set_isAlive_rooms_of b s h s' :
  rooms_of (State (rooms h) (alter (set_isAlive b) s (heap h))) s'
  = rooms_of h s'.
Proof.
  unfold rooms_of. simpl. rewrite lookup_alter.
  destruct (decide (s = s')) as [<-|]; [|done]. by destruct (heap h !! s).
Qed.

Lemma set_isAlive_isAlive_of b s h s' :
  isAlive_of (State (rooms h) (alter (set_isAlive b) s (heap h))) s'
  = if decide (s = s') then (λ _, b) <$> isAlive_of h s else isAlive_of h s'.
Proof.
  unfold isAlive_of. simpl. rewrite lookup_alter.
  destruct (decide (s = s')) as [<-|]; [|done]. by destruct (heap h !! s).
Qed.

Lemma set_isAlive_inv b s h :
  hub_inv h → hub_inv (State (rooms h) (alter (set_isAlive b) s (heap h))).
Proof.
  apply hub_inv_same_rooms; [done |]. intros s'. apply set_isAlive_rooms_of.
Qed.

Lemma on_connection_rooms_of token s h s' :
  heap h !! s = None →
  rooms_of (on_connection verifyToken token s h).1 s' = rooms_of h s'.
Proof.
  intros Hs. unfold on_connection.
  destruct token as [t|]; [|done]. case_bool_decide; [done |].
  destruct (verifyToken t); [|done]. unfold rooms_of. simpl.
  rewrite lookup_insert. destruct (decide (s = s')) as [<-|]; [|done].
  by rewrite Hs.
Qed.

Lemma on_connection_rooms token s h :
  rooms (on_connection verifyToken token s h).1 = rooms h.
Proof.
  unfold on_connection. destruct token as [t|]; [|done].
  case_bool_decide; [done |]. by destruct (verifyToken t).
Qed.

Lemma on_connection_isAlive_of token s h s' :
  s ≠ s' →
  isAlive_of (on_connection verifyToken token s h).1 s' = isAlive_of h s'.
Proof.
  intros Hne. unfold on_connection. destruct token as [t|]; [|done].
  case_bool_decide; [done |]. destruct (verifyToken t); [|done].
  unfold isAlive_of. simpl. by rewrite lookup_insert_ne.
Qed.

Lemma handleMessage_inv s message h :
  is_Some (heap h !! s) → hub_inv h → hub_inv (handleMessage s message h).
Proof.
  intros Hs Hinv. destruct message as [[]|]; simpl; try done.
  - by apply join_inv.
  - by apply leave_inv.
  - by apply set_isAlive_inv.
Qed.

(** *** The heartbeat sweep *)

Lemma heartbeat_client_inv c h h' e :
  heartbeat_client JSON_stringify c h = Some (h', e) →
  hub_inv h → hub_inv h'.
Proof.
  unfold heartbeat_client. destruct (heap h !! c) as [sk|]; [|done].
  destruct (isAlive sk); simpl; intros [= <- <-] Hinv.
  - by apply set_isAlive_inv.
  - by apply handleDisconnect_inv.
Qed.


Lemma heartbeat_client_heap c h h' e s :
  heartbeat_client JSON_stringify c h = Some (h', e) →
  is_Some (heap h' !! s) ↔ is_Some (heap h !! s).
Proof.
  unfold heartbeat_client. destruct (heap h !! c) as [sk|]; [|done].
  destruct (isAlive sk); simpl; intros [= <- <-].
  - simpl. apply lookup_alter_is_Some.
  - apply handleDisconnect_heap_is_Some.
Qed.

Lemma heartbeat_client_other c h h' e s :
  heartbeat_client JSON_stringify c h = Some (h', e) →
  hub_inv h → c ≠ s →
  rooms_of h' s = rooms_of h s ∧ isAlive_of h' s = isAlive_of h s.
Proof.
  unfold heartbeat_client. destruct (heap h !! c) as [sk|]; [|done].
  destruct (isAlive sk); simpl; intros [= <- <-] Hinv Hne.
  - by rewrite set_isAlive_rooms_of, set_isAlive_isAlive_of, decide_False.
  - by rewrite handleDisconnect_rooms_of, handleDisconnect_isAlive_of,
         decide_False.
Qed.




(** The sweep, one client further. *)
Lemma heartbeat_step c clients h h1 e1 :
  heartbeat_client JSON_stringify c h = Some (h1, e1) →
  heartbeat JSON_stringify (c :: clients) h
  = ((heartbeat JSON_stringify clients h1).1.1,
     e1 ++ (heartbeat JSON_stringify clients h1).1.2,
     (heartbeat JSON_stringify clients h1).2).
Proof.
  intros Hc. simpl. rewrite Hc.
  by destruct (heartbeat JSON_stringify clients h1) as [[h2 e2] o].
Qed.

Lemma heartbeat_throw c clients h :
  heartbeat_client JSON_stringify c h = None →
  heartbeat JSON_stringify (c :: clients) h = (h, [], Threw).
Proof. intros Hc. simpl. by rewrite Hc. Qed.

(** Induction over a sweep: a property of the hub state that every
    client's turn preserves holds after the sweep, however it ends. *)
Lemma heartbeat_preserves (P : state → Prop) clients h :
  (∀ c h0 h1 e1,
     heartbeat_client JSON_stringify c h0 = Some (h1, e1) → P h0 → P h1) →
  P h → P (heartbeat JSON_stringify clients h).1.1.
Proof.
  intros Hturn. revert h. induction clients as [|c clients IH]; intros h Hh;
    [done |].
  destruct (heartbeat_client JSON_stringify c h) as [[h1 e1]|] eqn:Hc.
  - rewrite (heartbeat_step _ _ _ _ _ Hc). simpl. apply IH. by eapply Hturn.
  - by rewrite heartbeat_throw.
Qed.

Lemma heartbeat_inv clients h :
  hub_inv h → hub_inv (heartbeat JSON_stringify clients h).1.1.
Proof.
  apply heartbeat_preserves. intros c h0 h1 e1 Hc. by eapply heartbeat_client_inv.
Qed.

Lemma heartbeat_heap clients h s :
  is_Some (heap (heartbeat JSON_stringify clients h).1.1 !! s)
  ↔ is_Some (heap h !! s).
Proof.
  apply (heartbeat_preserves
           (λ h', is_Some (heap h' !! s) ↔ is_Some (heap h !! s))); [|done].
  intros c h0 h1 e1 Hc <-. by eapply heartbeat_client_heap.
Qed.



(** *** Readiness of [wss.clients] for a sweep *)

Lemma sweep_ready_ext h h' (l : list sock) :
  (∀ s, s ∈ l →
     (is_Some (heap h !! s) → is_Some (heap h' !! s))
     ∧ (isAlive_of h' s = Some false → isAlive_of h s = Some false)) →
  sweep_ready h l → sweep_ready h' l.
Proof.
  induction l as [|c l IH]; intros Hext; [done |].
  assert (Hl : ∀ s, s ∈ l →
     (is_Some (heap h !! s) → is_Some (heap h' !! s))
     ∧ (isAlive_of h' s = Some false → isAlive_of h s = Some false))
    by (intros s Hs; apply Hext; by right).
  simpl. intros [[Hc Hr]|Hnd].
  - left. split; [apply Hext; [left | done] | by apply IH].
  - right. intros s Hs Ha. apply (Hnd s Hs). by apply Hl.
Qed.

Lemma sweep_ready_no_dead h (l : list sock) :
  (∀ s, s ∈ l → isAlive_of h s ≠ Some false) → sweep_ready h l.
Proof.
  destruct l as [|c l]; [done |]. intros Hnd. right.
  intros s Hs. apply Hnd. by right.
Qed.

Lemma sweep_ready_tail h c (l : list sock) :
  sweep_ready h (c :: l) → sweep_ready h l.
Proof. intros [[_ Hr]|Hnd]; [done | by apply sweep_ready_no_dead]. Qed.

Lemma sweep_ready_delete h (l : list sock) s :
  sweep_ready h l → sweep_ready h (JsSet.delete l s).
Proof.
  unfold JsSet.delete. induction l as [|c l IH]; [done |].
  intros Hr. rewrite filter_cons. destruct (decide (c ≠ s)).
  - destruct Hr as [[Hc Hr]|Hnd].
    + left. split; [done | by apply IH].
    + right. intros x [_ Hx]%list_elem_of_filter. by apply Hnd.
  - apply IH. by eapply sweep_ready_tail.
Qed.

Lemma sweep_ready_snoc h h' (l : list sock) c :
  (∀ s, s ∈ l →
     (is_Some (heap h !! s) → is_Some (heap h' !! s))
     ∧ (isAlive_of h' s = Some false → isAlive_of h s = Some false)) →
  isAlive_of h' c ≠ Some false →
  sweep_ready h l → sweep_ready h' (l ++ [c]).
Proof.
  intros Hext Hc. induction l as [|x l IH]; intros Hr.
  - right. by intros s ?%elem_of_nil.
  - assert (Hl : ∀ s, s ∈ l →
       (is_Some (heap h !! s) → is_Some (heap h' !! s))
       ∧ (isAlive_of h' s = Some false → isAlive_of h s = Some false))
      by (intros s Hs; apply Hext; by right).
    destruct Hr as [[Hx Hr]|Hnd].
    + left. split; [apply Hext; [left | done] | by apply IH].
    + right. intros s [Hs| ->%list_elem_of_singleton]%elem_of_app; [|done].
      intros Ha. apply (Hnd s Hs). by apply Hl.
Qed.

(** A sweep leaves the clients ready for the next one. *)
Lemma heartbeat_ready (l : list sock) h :
  hub_inv h → NoDup l → sweep_ready h l →
  sweep_ready (heartbeat JSON_stringify l h).1.1 l.
Proof.
  revert h. induction l as [|c l IH]; intros h Hinv Hnd Hr; [done |].
  apply NoDup_cons in Hnd as [Hc Hnd].
  destruct (heartbeat_client JSON_stringify c h) as [[h1 e1]|] eqn:Hturn.
  - rewrite (heartbeat_step _ _ _ _ _ Hturn). simpl. left. split.
    + apply heartbeat_heap. apply (heartbeat_client_heap _ _ _ _ c Hturn).
      unfold heartbeat_client in Hturn. by destruct (heap h !! c).
    + apply IH; [by eapply heartbeat_client_inv | done |].
      apply (sweep_ready_ext h); [|by eapply sweep_ready_tail].
      intros s Hs. assert (c ≠ s) by (by intros ->).
      split.
      * by rewrite (heartbeat_client_heap _ _ _ _ s Hturn).
      * by destruct (heartbeat_client_other _ _ _ _ s Hturn Hinv) as [_ ->].
  - by rewrite heartbeat_throw.
Qed.



End HubSteps.

Section ServerReachable.
Import Shared Hub.
Context (JSON_stringify : WebSocketMessage → string).
Context (verifyToken : string → option Z).
Implicit Types (h : state) (sv : server) (s c : sock) (g : Z).

Lemma empty_server_inv : server_inv empty_server.
Proof. split; [apply empty_hub_inv | constructor | done]. Qed.

Lemma on_connection_heap token s h s' :
  is_Some (heap h !! s') →
  is_Some (heap (on_connection verifyToken token s h).1 !! s').
Proof.
  intros Hs'. unfold on_connection. destruct token as [t|]; [|done].
  case_bool_decide; [done |]. destruct (verifyToken t); [|done]. simpl.
  apply lookup_insert_is_Some'. by right.
Qed.

Lemma on_connection_fresh_alive token s h :
  heap h !! s = None →
  isAlive_of (on_connection verifyToken token s h).1 s ≠ Some false.
Proof.
  intros Hs. unfold on_connection, isAlive_of.
  destruct token as [t|]; [|simpl; by rewrite Hs].
  case_bool_decide; [simpl; by rewrite Hs |].
  destruct (verifyToken t); simpl; [|by rewrite Hs].
  by rewrite lookup_insert_eq.
Qed.

Lemma handleMessage_heap s message h s' :
  is_Some (heap (handleMessage s message h) !! s') ↔ is_Some (heap h !! s').
Proof.
  destruct message as [[]|]; simpl; try done.
  - apply join_heap_is_Some.
  - apply leave_heap_is_Some.
  - apply lookup_alter_is_Some.
Qed.

(** A message never clears [isAlive]. *)
Lemma handleMessage_dead s message h s' :
  isAlive_of (handleMessage s message h) s' = Some false →
  isAlive_of h s' = Some false.
Proof.
  destruct message as [[]|]; simpl; try done.
  - by rewrite join_isAlive_of.
  - by rewrite leave_isAlive_of.
  - rewrite set_isAlive_isAlive_of. destruct (decide (s = s')); [|done].
    by destruct (isAlive_of h s).
Qed.

Lemma server_step_inv sv ev sv' :
  server_step JSON_stringify verifyToken sv ev sv' →
  server_inv sv → server_inv sv'.
Proof.
  intros Hstep [Hinv Hnd Hr]. destruct Hstep as
    [sv s token Hc Hs|sv s message Hc Hs|sv s Hc Hs|sv s Hc Hs|sv s Hc|sv];
    split; simpl.
  - eapply hub_inv_same_rooms; [| |exact Hinv].
    + apply on_connection_rooms.
    + intros s'. by apply on_connection_rooms_of.
  - by apply JsSet_add_NoDup.
  - unfold JsSet.add. rewrite bool_decide_false by done.
    apply (sweep_ready_snoc (hub sv)); [| by apply on_connection_fresh_alive
                                        | done].
    intros x Hx. assert (s ≠ x) by (by intros ->).
    split; [apply on_connection_heap |].
    by rewrite on_connection_isAlive_of.
  - by apply handleMessage_inv.
  - done.
  - apply (sweep_ready_ext (hub sv)); [|done]. intros x _.
    split; [by rewrite handleMessage_heap | apply handleMessage_dead].
  - by apply set_isAlive_inv.
  - done.
  - apply (sweep_ready_ext (hub sv)); [|done]. intros x _.
    split; [unfold on_pong; simpl; by rewrite lookup_alter_is_Some |].
    apply (handleMessage_dead s (Some PONG)).
  - by apply handleDisconnect_inv.
  - done.
  - apply (sweep_ready_ext (hub sv)); [|done]. intros x _.
    by rewrite handleDisconnect_heap_is_Some, handleDisconnect_isAlive_of.
  - case_bool_decide; [by apply handleDisconnect_inv | done].
  - by apply JsSet_delete_NoDup.
  - apply sweep_ready_delete. apply (sweep_ready_ext (hub sv)); [|done].
    intros x _. case_bool_decide; [|done].
    by rewrite handleDisconnect_heap_is_Some, handleDisconnect_isAlive_of.
  - by apply heartbeat_inv.
  - done.
  - by apply heartbeat_ready.
Qed.

Lemma server_steps_inv sv evs sv' :
  server_steps JSON_stringify verifyToken sv evs sv' →
  server_inv sv → server_inv sv'.
Proof.
  induction 1 as [|sv1 ev sv2 evs sv3 Hstep _ IH]; [done |].
  intros Hinv. apply IH. by eapply server_step_inv.
Qed.

Lemma reachable_inv sv :
  reachable JSON_stringify verifyToken sv → server_inv sv.
Proof.
  intros [evs Hsteps]. eapply server_steps_inv; [done | apply empty_server_inv].
Qed.

Lemma reachable_hub_inv sv :
  reachable JSON_stringify verifyToken sv → hub_inv (hub sv).
Proof. by intros [? _ _]%reachable_inv. Qed.

Lemma server_steps_app sv1 evs1 sv2 evs2 sv3 :
  server_steps JSON_stringify verifyToken sv1 evs1 sv2 →
  server_steps JSON_stringify verifyToken sv2 evs2 sv3 →
  server_steps JSON_stringify verifyToken sv1 (evs1 ++ evs2) sv3.
Proof.
  induction 1 as [|sa ev sb evs sc Hstep _ IH]; [done |].
  intros Hrest. simpl. econstructor; [done | by apply IH].
Qed.

Lemma reachable_step sv ev sv' :
  reachable JSON_stringify verifyToken sv →
  server_step JSON_stringify verifyToken sv ev sv' →
  reachable JSON_stringify verifyToken sv'.
Proof.
  intros [evs Hsteps] Hstep. exists (evs ++ [ev]).
  eapply server_steps_app; [done |]. econstructor; [done | constructor].
Qed.

Lemma reachable_steps sv evs sv' :
  reachable JSON_stringify verifyToken sv →
  server_steps JSON_stringify verifyToken sv evs sv' →
  reachable JSON_stringify verifyToken sv'.
Proof.
  intros [evs0 Hsteps0] Hsteps. exists (evs0 ++ evs).
  by eapply server_steps_app.
Qed.





Lemma state_eq h1 h2 : rooms h1 = rooms h2 → heap h1 = heap h2 → h1 = h2.
Proof. destruct h1, h2. simpl. by intros -> ->. Qed.

Lemma join_join s g h :
  joinGroupRoom s g (joinGroupRoom s g h) = joinGroupRoom s g h.
Proof.
  apply state_eq.
  - apply map_eq. intros g'. rewrite !join_rooms_lookup.
    destruct (decide (g = g')); [|done].
    by rewrite join_members, decide_True, JsSet_add_add.
  - unfold joinGroupRoom. simpl. apply map_eq. intros s'.
    rewrite !lookup_alter. destruct (decide (s = s')) as [<-|]; [|done].
    rewrite decide_True by done.
    destruct (heap h !! s) as [sk|]; simpl; [|done].
    f_equal. unfold set_groupRooms. simpl. by rewrite JsSet_add_add.
Qed.


End ServerReachable.

(** ** Sample server states are reachable *)

Section SampleStates.
Import Shared Hub Samples.

Lemma srv_connected_reachable : reachable stringify verify srv_connected.
Proof.
  exists [EvConnection sA (Some "token-ann"); EvConnection sB (Some "token-bob")].
  econstructor.
  { apply (step_connection stringify verify empty_server sA); [|done].
    apply not_elem_of_nil. }
  econstructor; [|constructor].
  apply (step_connection stringify verify
           (Server (on_connection verify (Some "token-ann") sA empty_hub).1
                   [sA]) sB); [|done].
  by intros [=]%list_elem_of_singleton.
Qed.

Lemma srv_ann_in_42_reachable : reachable stringify verify srv_ann_in_42.
Proof.
  eapply reachable_step; [apply srv_connected_reachable |].
  apply (step_message stringify verify srv_connected sA
           (Some (JOIN_GROUP 42))); [left | by eexists].
Qed.

Lemma srv_both_in_42_reachable : reachable stringify verify srv_both_in_42.
Proof.
  eapply reachable_step; [apply srv_ann_in_42_reachable |].
  apply (step_message stringify verify srv_ann_in_42 sB
           (Some (JOIN_GROUP 42))); [right; left | by eexists].
Qed.

Lemma srv_with_guest_steps :
  server_steps stringify verify srv_probed
    [EvPong sB; EvConnection sU None] srv_with_guest.
Proof.
  econstructor.
  { apply (step_pong stringify verify srv_probed sB); [right; left | by eexists]. }
  econstructor; [|constructor].
  apply (step_connection stringify verify srv_bob_acked sU None); [|done].
  intros Hin. repeat (apply elem_of_cons in Hin as [[=]|Hin]).
  by apply elem_of_nil in Hin.
Qed.

(** The sweep over Ann, Bob and the unauthenticated guest deals with Ann
    and Bob and then throws on the guest. *)
Example heartbeat_throws_on_guest :
  (heartbeat stringify (clients srv_with_guest) (hub srv_with_guest)).1.2
  = [Terminate sA; Send sB "PING"]
  ∧ (heartbeat stringify (clients srv_with_guest) (hub srv_with_guest)).2
    = Threw.
Proof. split; reflexivity. Qed.

End SampleStates.

(** ** The hub's contract *)

Section HubContract.
Import Shared Hub Samples.
Implicit Types (h : state) (sv : server) (s c : sock) (g : Z).

Lemma broadcastToGroup_filter JSON_stringify readyState h g message ex :
  broadcastToGroup JSON_stringify readyState h g message ex
  = (λ s, Send s (JSON_stringify message))
      <$> filter (λ s, userId_of h s ≠ ex ∧ readyState s = OPEN) (members h g).
Proof.
  unfold broadcastToGroup, members.
  destruct (rooms h !! g) as [room|]; [|done]. simpl.
  induction room as [|s room IH]; [done |].
  simpl. rewrite IH, filter_cons.
  destruct (decide (userId_of h s ≠ ex ∧ readyState s = OPEN)) as [[? ?]|Hn].
  - by rewrite !bool_decide_true by done.
  - case_bool_decide; [|done]. case_bool_decide; [|done]. tauto.
Qed.

(** C3. [broadcastToGroup(groupId, message, excludeUserId)] sends the
    serialized message to the sockets of the group's room whose [userId]
    differs from [excludeUserId] and whose ready state is OPEN, in the
    room's order, and to nobody else; sockets in another ready state are
    passed over; when no member has the excluded user id every open member
    is sent to; without a room for [groupId] nothing is sent.  In a
    reachable server state no socket gets the message twice, and every
    member of a room has a [userId]. *)
Theorem broadcastToGroup_delivery JSON_stringify readyState h g message ex :
  broadcastToGroup JSON_stringify readyState h g message ex
  = (λ s, Send s (JSON_stringify message))
      <$> filter (λ s, userId_of h s ≠ ex ∧ readyState s = OPEN) (members h g)
  ∧ (∀ s payload,
       Send s payload ∈ broadcastToGroup JSON_stringify readyState h g message ex
       ↔ payload = JSON_stringify message ∧ s ∈ members h g
         ∧ userId_of h s ≠ ex ∧ readyState s = OPEN)
  ∧ ((∀ s, s ∈ members h g → userId_of h s ≠ ex) →
     broadcastToGroup JSON_stringify readyState h g message ex
     = (λ s, Send s (JSON_stringify message))
         <$> filter (λ s, readyState s = OPEN) (members h g))
  ∧ (rooms h !! g = None →
     broadcastToGroup JSON_stringify readyState h g message ex = [])
  ∧ (∀ verifyToken sv,
       reachable JSON_stringify verifyToken sv → h = hub sv →
       NoDup (broadcastToGroup JSON_stringify readyState h g message ex)
       ∧ ∀ s, s ∈ members h g → is_Some (userId_of h s)).
Proof.
  split_and!.
  - apply broadcastToGroup_filter.
  - intros s payload. rewrite broadcastToGroup_filter, list_elem_of_fmap.
    split.
    + intros (s' & [= -> ->] & (? & ?)%list_elem_of_filter). tauto.
    + intros (-> & ? & ? & ?). exists s. split; [done |].
      apply list_elem_of_filter. tauto.
  - intros Hex. rewrite broadcastToGroup_filter. f_equal.
    induction (members h g) as [|s l IH]; [done |].
    rewrite !filter_cons.
    assert (userId_of h s ≠ ex) by (apply Hex; left).
    rewrite IH by (intros s' Hs'; apply Hex; by right).
    destruct (decide (readyState s = OPEN)).
    + by rewrite decide_True.
    + by rewrite decide_False by tauto.
  - intros Hg. unfold broadcastToGroup. by rewrite Hg.
  - intros verifyToken sv Hinv%reachable_hub_inv ->. split.
    + rewrite broadcastToGroup_filter. apply NoDup_fmap_2.
      * by intros s1 s2 [=].
      * apply NoDup_filter, Hinv.
    + intros s Hs. apply (inv_membership _ Hinv) in Hs.
      unfold rooms_of, userId_of in *.
      destruct (heap (hub sv) !! s); [by eexists | by apply elem_of_nil in Hs].
Qed.

(** The end-to-end scenario: Ann and Bob are in room 42, Ann's addition
    is broadcast with Ann excluded; Bob's socket gets it once, Ann's not. *)
Lemma broadcastToGroup_delivery_witness :
  broadcastToGroup stringify all_open hub_both_in_42 42
    (SELECTION_ADDED 1 7 42 "Ann" 1) (Some 1)
  = [Send sB "SELECTION_ADDED"]
  ∧ broadcastToGroup stringify all_open hub_both_in_42 42 PING (Some 3)
    = [Send sA "PING"; Send sB "PING"]
  ∧ broadcastToGroup stringify all_open hub_both_in_42 43 PING None = []
  ∧ NoDup (broadcastToGroup stringify all_open hub_both_in_42 42 PING None).
Proof.
  split_and!.
  - exact (proj1 (broadcastToGroup_delivery stringify all_open hub_both_in_42
                    42 (SELECTION_ADDED 1 7 42 "Ann" 1) (Some 1))).
  - refine (proj1 (proj2 (proj2 (broadcastToGroup_delivery stringify all_open
                     hub_both_in_42 42 PING (Some 3)))) _).
    intros s Hs. vm_compute in Hs.
    repeat (apply elem_of_cons in Hs as [->|Hs]; [by vm_compute |]).
    by apply elem_of_nil in Hs.
  - refine (proj1 (proj2 (proj2 (proj2 (broadcastToGroup_delivery stringify
                     all_open hub_both_in_42 43 PING None)))) _).
    reflexivity.
  - refine (proj1 (proj2 (proj2 (proj2 (proj2 (broadcastToGroup_delivery
                     stringify all_open hub_both_in_42 42 PING None))))
                   verify srv_both_in_42 _ eq_refl)).
    apply srv_both_in_42_reachable.
Defined.

(** C4. In every state reached from the empty server by connections,
    joins, leaves, disconnects (and the server's other events), a socket
    is in a room's session set exactly when the room id is in the socket's
    own [groupRooms]. *)
Theorem room_membership_invariant JSON_stringify verifyToken sv :
  reachable JSON_stringify verifyToken sv →
  ∀ s g, s ∈ members (hub sv) g ↔ g ∈ rooms_of (hub sv) s.
Proof. intros Hinv%reachable_hub_inv. apply Hinv. Qed.

Lemma room_membership_invariant_witness :
  sB ∈ members hub_both_in_42 42 ↔ 42 ∈ rooms_of hub_both_in_42 sB.
Proof.
  apply (room_membership_invariant stringify verify srv_both_in_42).
  apply srv_both_in_42_reachable.
Defined.





(** C7. [joinGroupRoom(s, g)] twice gives the same hub state as once;
    it creates the room when there was none; and after it the room of
    [g] lists [s] exactly once (in a reachable state, for an authenticated
    [s]). *)
Theorem join_idempotent s g :
  (∀ h, joinGroupRoom s g (joinGroupRoom s g h) = joinGroupRoom s g h)
  ∧ (∀ h, rooms h !! g = None →
          rooms (joinGroupRoom s g h) !! g = Some [s])
  ∧ (∀ JSON_stringify verifyToken sv,
       reachable JSON_stringify verifyToken sv →
       is_Some (heap (hub sv) !! s) →
       length (filter (λ x, x = s)
                 (members (joinGroupRoom s g (joinGroupRoom s g (hub sv))) g))
       = 1%nat).
Proof.
  split_and!.
  - apply join_join.
  - intros h Hg. rewrite join_rooms_lookup, decide_True by done.
    unfold members. by rewrite Hg.
  - intros JSON_stringify verifyToken sv Hinv%reachable_hub_inv Hs.
    rewrite join_join.
    assert (Hnd : NoDup (members (joinGroupRoom s g (hub sv)) g))
      by (by apply join_inv).
    assert (Hin : s ∈ members (joinGroupRoom s g (hub sv)) g).
    { rewrite join_members, decide_True by done.
      apply elem_of_JsSet_add. by left. }
    revert Hnd Hin. generalize (members (joinGroupRoom s g (hub sv)) g) as l.
    induction l as [|x l IH]; intros Hnd Hin; [by apply elem_of_nil in Hin |].
    apply NoDup_cons in Hnd as [Hx Hnd]. rewrite filter_cons.
    destruct (decide (x = s)) as [->|Hne].
    + simpl. f_equal. rewrite filter_none; [done |]. by intros y Hy ->.
    + apply IH; [done |]. apply elem_of_cons in Hin as [?|?]; done.
Qed.

Lemma join_idempotent_witness :
  rooms (joinGroupRoom sA 42 hub_connected) !! 42 = Some [sA]
  ∧ length (filter (λ x, x = sA)
              (members (joinGroupRoom sA 42 (joinGroupRoom sA 42 hub_connected))
                       42)) = 1%nat.
Proof.
  split.
  - apply (proj1 (proj2 (join_idempotent sA 42)) hub_connected). reflexivity.
  - apply (proj2 (proj2 (join_idempotent sA 42))
             stringify verify srv_connected srv_connected_reachable).
    by eexists.
Defined.

(** C8. The connection handler closes the connection at once, leaving the
    hub as it was, when authentication fails: with reason
    "No token provided" when the query carries no token (or an empty
    one), and with reason "Invalid token" when [verifyToken] rejects the
    token; the two close calls differ (in the reason, the close code being
    4001 in both).  When [verifyToken] accepts, no close is sent and the
    socket gets the verified [userId], an empty [groupRooms] and
    [isAlive = true]. *)
Theorem connection_authentication verifyToken s h :
  on_connection verifyToken None s h
  = (h, [SendClose s 4001 "No token provided"])
  ∧ on_connection verifyToken (Some EmptyString) s h
    = (h, [SendClose s 4001 "No token provided"])
  ∧ (∀ t, t ≠ EmptyString → verifyToken t = None →
       on_connection verifyToken (Some t) s h
       = (h, [SendClose s 4001 "Invalid token"]))
  ∧ SendClose s 4001 "No token provided" ≠ SendClose s 4001 "Invalid token"
  ∧ (∀ t uid, t ≠ EmptyString → verifyToken t = Some uid →
       ∃ h', on_connection verifyToken (Some t) s h = (h', [])
             ∧ heap h' !! s = Some (Socket uid [] true)
             ∧ userId_of h' s = Some uid
             ∧ isAlive_of h' s = Some true
             ∧ rooms h' = rooms h).
Proof.
  split_and!; try done.
  - intros t Ht Hv. unfold on_connection.
    by rewrite bool_decide_false, Hv by done.
  - intros t uid Ht Hv. unfold on_connection.
    rewrite bool_decide_false, Hv by done.
    eexists. split; [done |]. unfold userId_of, isAlive_of. simpl.
    by rewrite lookup_insert_eq.
Qed.

Lemma connection_authentication_witness :
  on_connection verify (Some "token-eve") sA empty_hub
  = (empty_hub, [SendClose sA 4001 "Invalid token"])
  ∧ ∃ h', on_connection verify (Some "token-ann") sA empty_hub = (h', [])
          ∧ heap h' !! sA = Some (Socket 1 [] true)
          ∧ userId_of h' sA = Some 1
          ∧ isAlive_of h' sA = Some true
          ∧ rooms h' = rooms empty_hub.
Proof.
  split.
  - apply (proj1 (proj2 (proj2 (connection_authentication verify sA empty_hub)))
             "token-eve"); [discriminate | reflexivity].
  - apply (proj2 (proj2 (proj2 (proj2
             (connection_authentication verify sA empty_hub))))
             "token-ann" 1); [discriminate | reflexivity].
Defined.



End HubContract.

(** ** The selection API *)

Section SelectionApi.
Import Shared Selections Samples.
Implicit Types (db : database).


Lemma addSelection_triples db groupId userId actId priority :
  triples (addSelection db groupId userId actId priority).1.1 ≠ triples db
  ↔ (groupId, userId) ∈ group_members db ∧ (actId, groupId) ∈ group_acts db
    ∧ selections db !! (userId, groupId, actId) = None.
Proof.
  unfold addSelection, triples.
  case_bool_decide as Hm; [simpl; tauto |].
  case_bool_decide as Ha; [simpl; tauto |].
  destruct (selections db !! (userId, groupId, actId)) as [row|] eqn:Hsel.
  - simpl. rewrite dom_insert_L.
    assert ((userId, groupId, actId) ∈ dom (selections db))
      by (apply elem_of_dom; by eexists).
    split; [intros Hne; exfalso; apply Hne
           | intros (_ & _ & [=])].
    by apply subseteq_union_1_L, singleton_subseteq_l.
  - assert (dom (<[(userId, groupId, actId)
                   := Selection (last_rowid db + 1) (default 1 priority)]>
                   (selections db)) ≠ dom (selections db)) as Hne.
    { rewrite dom_insert_L. apply not_elem_of_dom in Hsel. intros Heq.
      apply Hsel. rewrite <- Heq.
      by apply elem_of_union_l, elem_of_singleton_2. }
    destruct (users db !! userId) as [name|]; simpl; split; auto.
Qed.



(** C9. Where the claim fails: a member who has no row in [users] adds an
    act of the group that they have not selected.  [addSelection] inserts
    the row, so the set of persisted [(userId, groupId, actId)] triples
    changes, then throws on [user.display_name] before
    [broadcastToGroup] is called: the set has changed and nothing is
    broadcast. *)
Theorem addSelection_unknown_user db groupId userId actId priority :
  (groupId, userId) ∈ group_members db →
  (actId, groupId) ∈ group_acts db →
  selections db !! (userId, groupId, actId) = None →
  users db !! userId = None →
  let key := (userId, groupId, actId) in
  let row := Selection (last_rowid db + 1) (default 1 priority) in
  let added := addSelection db groupId userId actId priority in
  added = (with_selections db (<[key := row]> (selections db))
                           (last_rowid db + 1),
           Thrown, [])
  ∧ triples added.1.1 ≠ triples db
  ∧ triples added.1.1 = {[key]} ∪ triples db
  ∧ added.2 = [].
Proof.
  intros Hm Ha Hsel Hu key row added.
  assert (Hadd : added = (with_selections db (<[key := row]> (selections db))
                                          (last_rowid db + 1), Thrown, [])).
  { unfold added, addSelection.
    rewrite bool_decide_false by auto. rewrite bool_decide_false by auto.
    by rewrite Hsel, Hu. }
  split; [done |]. split; [| split].
  - apply addSelection_triples. done.
  - rewrite Hadd. unfold triples. simpl. by rewrite dom_insert_L.
  - by rewrite Hadd.
Qed.

Lemma addSelection_unknown_user_witness :
  let added := addSelection db_no_user 42 3 8 None in
  added = (with_selections db_no_user
             (<[(3, 42, 8) := Selection 2 1]> (selections db_no_user)) 2,
           Thrown, [])
  ∧ triples added.1.1 ≠ triples db_no_user
  ∧ triples added.1.1 = {[(3, 42, 8)]} ∪ triples db_no_user
  ∧ added.2 = [].
Proof.
  apply (addSelection_unknown_user db_no_user 42 3 8 None); by vm_compute.
Defined.



End SelectionApi.

(** * Further properties of the hub *)

Section HubMore.
Import Shared Hub Samples.
Implicit Types (h : state) (sv : server) (s c : sock) (g : Z).

Lemma JsSet_delete_add_fresh `{EqDecision A} (l : list A) (x : A) :
  x ∉ l → JsSet.delete (JsSet.add l x) x = l.
Proof.
  intros Hx. unfold JsSet.add. rewrite bool_decide_false by done.
  unfold JsSet.delete. rewrite filter_app, filter_cons_False, filter_nil by tauto.
  rewrite app_nil_r. by apply JsSet_delete_absent.
Qed.

Lemma JsSet_delete_length `{EqDecision A} (l : list A) (x : A) :
  NoDup l → x ∈ l → S (length (JsSet.delete l x)) = length l.
Proof.
  unfold JsSet.delete. induction l as [|y l IH]; intros Hnd Hin;
    [by apply elem_of_nil in Hin |].
  apply NoDup_cons in Hnd as [Hy Hnd]. rewrite filter_cons.
  destruct (decide (y ≠ x)) as [Hne|Heq].
  - simpl. f_equal. apply IH; [done |].
    apply elem_of_cons in Hin as [?|?]; [congruence | done].
  - apply dec_stable in Heq as ->. simpl.
    pose proof (JsSet_delete_absent l x Hy) as Hl. unfold JsSet.delete in Hl.
    by rewrite Hl.
Qed.

Lemma getGroupConnectionCount_members h g :
  getGroupConnectionCount h g = Z.of_nat (length (members h g)).
Proof.
  unfold getGroupConnectionCount, members. by destruct (rooms h !! g).
Qed.

(** X1. [getGroupConnectionCount] is the size of the room's session set:
    it is 0 exactly for a group without a room entry, a join of a socket
    not yet in the room raises it by one, a repeated join leaves it, a
    leave of a member lowers it by one and a leave of a non-member leaves
    it. *)
Theorem connection_count JSON_stringify verifyToken sv g :
  reachable JSON_stringify verifyToken sv →
  let h := hub sv in
  (getGroupConnectionCount h g = 0 ↔ rooms h !! g = None)
  ∧ (∀ s, s ∉ members h g →
       getGroupConnectionCount (joinGroupRoom s g h) g
       = getGroupConnectionCount h g + 1
       ∧ getGroupConnectionCount (leaveGroupRoom s g h) g
         = getGroupConnectionCount h g)
  ∧ (∀ s, s ∈ members h g →
       getGroupConnectionCount (joinGroupRoom s g h) g
       = getGroupConnectionCount h g
       ∧ getGroupConnectionCount (leaveGroupRoom s g h) g
         = getGroupConnectionCount h g - 1).
Proof.
  intros Hinv%reachable_hub_inv h. subst h. split_and!.
  - unfold getGroupConnectionCount.
    pose proof (inv_nonempty _ Hinv g) as Hne.
    destruct (rooms (hub sv) !! g) as [[|x room]|]; [done | | done].
    simpl. split; [lia | done].
  - intros s Hs. rewrite !getGroupConnectionCount_members.
    rewrite join_members, leave_members, !decide_True by done.
    rewrite JsSet_delete_absent by done. split; [|done].
    unfold JsSet.add. rewrite bool_decide_false by done.
    rewrite length_app. simpl. lia.
  - intros s Hs. rewrite !getGroupConnectionCount_members.
    rewrite join_members, leave_members, !decide_True by done.
    rewrite JsSet_add_present by done. split; [done |].
    rewrite <- (JsSet_delete_length (members (hub sv) g) s);
      [lia | apply Hinv | done].
Qed.

Lemma connection_count_witness :
  getGroupConnectionCount (joinGroupRoom sB 42 hub_ann_in_42) 42 = 2
  ∧ getGroupConnectionCount (leaveGroupRoom sA 42 hub_ann_in_42) 42 = 0.
Proof.
  destruct (connection_count stringify verify srv_ann_in_42 42
              srv_ann_in_42_reachable) as (_ & Hout & Hin).
  split.
  - apply (Hout sB). vm_compute. intros Hin'.
    apply elem_of_cons in Hin' as [Heq|Hin']; [discriminate Heq |].
    by apply elem_of_nil in Hin'.
  - apply (Hin sA). vm_compute. left.
Defined.

(** X2. Joining a room and leaving it again restores the hub state, for a
    socket that was not in the room (an entry created for the join is
    removed again). *)
Theorem join_leave_round_trip JSON_stringify verifyToken sv s g :
  reachable JSON_stringify verifyToken sv →
  s ∉ members (hub sv) g →
  leaveGroupRoom s g (joinGroupRoom s g (hub sv)) = hub sv.
Proof.
  intros Hinv%reachable_hub_inv Hs. set (h := hub sv) in *.
  apply state_eq.
  - apply map_eq. intros g'. rewrite leave_rooms_lookup, !join_rooms_lookup.
    destruct (decide (g = g')) as [<-|]; [|done].
    rewrite decide_True by done. rewrite JsSet_delete_add_fresh by done.
    pose proof (inv_nonempty _ Hinv g) as Hne. unfold members.
    destruct (rooms h !! g) as [[|x room]|]; simpl;
      [by destruct Hne | done | done].
  - unfold leaveGroupRoom, joinGroupRoom. simpl. apply map_eq. intros s'.
    rewrite !lookup_alter. destruct (decide (s = s')) as [<-|]; [|done].
    rewrite decide_True by done.
    rewrite (inv_membership _ Hinv) in Hs. unfold rooms_of in Hs.
    destruct (heap h !! s) as [sk|]; simpl; [|done]. f_equal.
    destruct sk as [uid gs alive]. unfold set_groupRooms. simpl in *.
    by rewrite JsSet_delete_add_fresh.
Qed.

Lemma join_leave_round_trip_witness :
  leaveGroupRoom sB 43 (joinGroupRoom sB 43 hub_ann_in_42) = hub_ann_in_42.
Proof.
  apply (join_leave_round_trip stringify verify srv_ann_in_42 sB 43
           srv_ann_in_42_reachable).
  vm_compute. apply not_elem_of_nil.
Defined.

Lemma untouched_refl s h : untouched s h h.
Proof. by split_and!. Qed.

Lemma untouched_trans s h1 h2 h3 :
  untouched s h1 h2 → untouched s h2 h3 → untouched s h1 h3.
Proof.
  intros (Hr & Ha & Hu & Hm) (Hr' & Ha' & Hu' & Hm').
  split_and!; [congruence | congruence | congruence |].
  intros g. by rewrite Hm', Hm.
Qed.

Lemma join_untouched s g h s' : s ≠ s' → untouched s' h (joinGroupRoom s g h).
Proof.
  intros Hne. split_and!.
  - unfold rooms_of, joinGroupRoom. simpl. by rewrite lookup_alter_ne.
  - apply join_isAlive_of.
  - unfold userId_of, joinGroupRoom. simpl. by rewrite lookup_alter_ne.
  - intros g'. rewrite join_members. destruct (decide (g = g')) as [<-|]; [|done].
    rewrite elem_of_JsSet_add.
    split; [intros [?|?]; [congruence | done] | auto].
Qed.

Lemma leave_untouched s g h s' : s ≠ s' → untouched s' h (leaveGroupRoom s g h).
Proof.
  intros Hne. split_and!.
  - by rewrite leave_rooms_of, decide_False.
  - apply leave_isAlive_of.
  - apply leave_userId_of.
  - intros g'. rewrite leave_members.
    destruct (decide (g = g')) as [<-|]; [|done].
    rewrite elem_of_JsSet_delete.
    split; [by intros [_ ?] | intros; split; [congruence | done]].
Qed.

Lemma set_isAlive_untouched b s h s' :
  s ≠ s' → untouched s' h (State (rooms h) (alter (set_isAlive b) s (heap h))).
Proof.
  intros Hne. split_and!; try done.
  - apply set_isAlive_rooms_of.
  - by rewrite set_isAlive_isAlive_of, decide_False.
  - unfold userId_of. simpl. by rewrite lookup_alter_ne.
Qed.

Lemma handleDisconnect_untouched s h s' :
  s ≠ s' → untouched s' h (handleDisconnect s h).
Proof.
  intros Hne.
  apply (handleDisconnect_preserves (untouched s' h)); [|apply untouched_refl].
  intros g h' Hh'. eapply untouched_trans; [done |]. by apply leave_untouched.
Qed.

(** X3. What one socket's messages, pongs and disconnection do never
    touches another socket: its joined rooms, liveness flag, user id and
    its membership of every room stay as they were. *)
Theorem socket_isolation s s' h :
  s ≠ s' →
  (∀ message, untouched s' h (handleMessage s message h))
  ∧ untouched s' h (on_pong s h)
  ∧ untouched s' h (handleDisconnect s h).
Proof.
  intros Hne. split_and!.
  - intros [[]|]; simpl; try apply untouched_refl.
    + by apply join_untouched.
    + by apply leave_untouched.
    + by apply set_isAlive_untouched.
  - by apply set_isAlive_untouched.
  - by apply handleDisconnect_untouched.
Qed.

Lemma socket_isolation_witness :
  untouched sB hub_both_in_42
    (handleMessage sA (Some (LEAVE_GROUP 42)) hub_both_in_42)
  ∧ untouched sB hub_both_in_42 (handleDisconnect sA hub_both_in_42).
Proof.
  destruct (socket_isolation sA sB hub_both_in_42) as (Hm & _ & Hd);
    [discriminate |].
  split; [apply Hm | apply Hd].
Defined.



(** *** More on the sweep *)

Lemma heartbeat_client_terminates JSON_stringify c h h1 e1 s :
  heartbeat_client JSON_stringify c h = Some (h1, e1) →
  Terminate s ∈ e1 → c = s ∧ isAlive_of h s = Some false.
Proof.
  unfold heartbeat_client, isAlive_of.
  destruct (heap h !! c) as [sk|] eqn:Hc; [|done].
  destruct (isAlive sk) eqn:Ha; simpl; intros [= <- <-].
  - by intros [=]%list_elem_of_singleton.
  - intros [= ->]%list_elem_of_singleton. rewrite Hc. simpl. by rewrite Ha.
Qed.

Lemma heartbeat_terminate_visited JSON_stringify (l : list sock) h s :
  Terminate s ∈ (heartbeat JSON_stringify l h).1.2 → s ∈ l.
Proof.
  revert h. induction l as [|c l IH]; intros h; [by intros ?%elem_of_nil |].
  destruct (heartbeat_client JSON_stringify c h) as [[h1 e1]|] eqn:Hturn.
  - rewrite (heartbeat_step _ _ _ _ _ _ Hturn). simpl.
    intros [Hs|Hs]%elem_of_app.
    + destruct (heartbeat_client_terminates _ _ _ _ _ _ Hturn Hs) as [-> _].
      left.
    + right. by eapply IH.
  - rewrite heartbeat_throw by done. by intros ?%elem_of_nil.
Qed.

Lemma heartbeat_not_visited JSON_stringify (l : list sock) h s :
  hub_inv h → s ∉ l →
  rooms_of (heartbeat JSON_stringify l h).1.1 s = rooms_of h s
  ∧ isAlive_of (heartbeat JSON_stringify l h).1.1 s = isAlive_of h s.
Proof.
  revert h. induction l as [|c l IH]; intros h Hinv Hs; [done |].
  apply not_elem_of_cons in Hs as [Hne Hs].
  destruct (heartbeat_client JSON_stringify c h) as [[h1 e1]|] eqn:Hturn.
  - rewrite (heartbeat_step _ _ _ _ _ _ Hturn). simpl.
    destruct (heartbeat_client_other _ _ _ _ _ s Hturn Hinv) as [<- <-];
      [done |].
    apply IH; [by eapply heartbeat_client_inv | done].
  - by rewrite heartbeat_throw.
Qed.

(** Only clients whose flag was [false] when the sweep began are
    terminated. *)
Lemma heartbeat_terminates_only_dead JSON_stringify (l : list sock) h s :
  hub_inv h → NoDup l →
  Terminate s ∈ (heartbeat JSON_stringify l h).1.2 →
  isAlive_of h s = Some false.
Proof.
  revert h. induction l as [|c l IH]; intros h Hinv Hnd;
    [by intros ?%elem_of_nil |].
  apply NoDup_cons in Hnd as [Hc Hnd].
  destruct (heartbeat_client JSON_stringify c h) as [[h1 e1]|] eqn:Hturn.
  - rewrite (heartbeat_step _ _ _ _ _ _ Hturn). simpl.
    intros [Hs|Hs]%elem_of_app.
    + by destruct (heartbeat_client_terminates _ _ _ _ _ _ Hturn Hs).
    + assert (c ≠ s).
      { intros ->. by apply heartbeat_terminate_visited in Hs. }
      destruct (heartbeat_client_other _ _ _ _ _ s Hturn Hinv) as [_ <-];
        [done |].
      apply IH; [by eapply heartbeat_client_inv | done | done].
  - rewrite heartbeat_throw by done. by intros ?%elem_of_nil.
Qed.

(** A client whose flag was [true] keeps its joined rooms. *)
Lemma heartbeat_live_rooms JSON_stringify (l : list sock) h s :
  hub_inv h → NoDup l → isAlive_of h s = Some true →
  rooms_of (heartbeat JSON_stringify l h).1.1 s = rooms_of h s.
Proof.
  revert h. induction l as [|c l IH]; intros h Hinv Hnd Ha; [done |].
  apply NoDup_cons in Hnd as [Hc Hnd].
  destruct (heartbeat_client JSON_stringify c h) as [[h1 e1]|] eqn:Hturn.
  - rewrite (heartbeat_step _ _ _ _ _ _ Hturn). simpl.
    assert (hub_inv h1) by (by eapply heartbeat_client_inv).
    destruct (decide (c = s)) as [->|Hne].
    + destruct (heartbeat_not_visited JSON_stringify l h1 s) as [-> _];
        [done | done |].
      unfold heartbeat_client, isAlive_of in *.
      destruct (heap h !! s) as [sk|]; [|done]. simpl in Ha.
      injection Ha as Ha. rewrite Ha in Hturn. simpl in Hturn.
      injection Hturn as <- <-. apply set_isAlive_rooms_of.
    + destruct (heartbeat_client_other _ _ _ _ _ s Hturn Hinv) as [<- Ha1];
        [done |].
      apply IH; [done | done | congruence].
  - by rewrite heartbeat_throw.
Qed.

(** X5. The sweep terminates only clients whose [isAlive] was [false]
    when it began; a client whose flag was [true] is not terminated,
    keeps its joined rooms and stays in the rooms it was in. *)
Theorem heartbeat_spares_live JSON_stringify verifyToken sv s :
  reachable JSON_stringify verifyToken sv →
  let r := heartbeat JSON_stringify (clients sv) (hub sv) in
  (Terminate s ∈ r.1.2 → isAlive_of (hub sv) s = Some false)
  ∧ (isAlive_of (hub sv) s = Some true →
     (Terminate s ∉ r.1.2)
     ∧ rooms_of r.1.1 s = rooms_of (hub sv) s
     ∧ ∀ g, s ∈ members r.1.1 g ↔ s ∈ members (hub sv) g).
Proof.
  intros [Hinv Hnd _]%reachable_inv. simpl.
  assert (Hdead : Terminate s ∈ (heartbeat JSON_stringify (clients sv)
                                    (hub sv)).1.2 →
                  isAlive_of (hub sv) s = Some false)
    by (by apply heartbeat_terminates_only_dead).
  split; [done |]. intros Ha.
  assert (Hro : rooms_of (heartbeat JSON_stringify (clients sv) (hub sv)).1.1 s
                = rooms_of (hub sv) s)
    by (by apply heartbeat_live_rooms).
  split_and!; [|done |].
  - intros Ht. apply Hdead in Ht. congruence.
  - intros g.
    rewrite (inv_membership _ (heartbeat_inv JSON_stringify _ _ Hinv)).
    by rewrite Hro, (inv_membership _ Hinv).
Qed.

Lemma heartbeat_spares_live_witness :
  let r := heartbeat stringify (clients srv_with_guest) (hub srv_with_guest) in
  (Terminate sB ∉ r.1.2)
  ∧ rooms_of r.1.1 sB = rooms_of (hub srv_with_guest) sB
  ∧ ∀ g, sB ∈ members r.1.1 g ↔ sB ∈ members (hub srv_with_guest) g.
Proof.
  apply (proj2 (heartbeat_spares_live stringify verify srv_with_guest sB
                  (reachable_steps _ _ _ _ _
                     (reachable_step _ _ _ _ _ srv_both_in_42_reachable
                        (step_heartbeat stringify verify srv_both_in_42))
                     srv_with_guest_steps))).
  reflexivity.
Defined.






(** X7. An acknowledgement keeps a client: after a pong or a PONG message
    from [s], the next sweep does not terminate [s] and leaves it in its
    rooms. *)
Theorem ack_survives_sweep JSON_stringify verifyToken sv s ev sv' :
  reachable JSON_stringify verifyToken sv →
  is_ack s ev →
  server_step JSON_stringify verifyToken sv ev sv' →
  let r := heartbeat JSON_stringify (clients sv') (hub sv') in
  isAlive_of (hub sv') s = Some true
  ∧ (Terminate s ∉ r.1.2)
  ∧ rooms_of r.1.1 s = rooms_of (hub sv) s.
Proof.
  intros Hreach Hack Hstep.
  destruct (reachable_inv _ _ _ (reachable_step _ _ _ _ _ Hreach Hstep))
    as [Hinv' Hnd' _].
  assert (isAlive_of (hub sv') s = Some true
          ∧ rooms_of (hub sv') s = rooms_of (hub sv) s) as [Ha Hro].
  { destruct Hack as [->| ->]; inversion Hstep as
      [| ? ? ? ? [sk Hsk] | ? ? ? [sk Hsk] | | |]; subst; simpl.
    - unfold on_pong. rewrite set_isAlive_isAlive_of, set_isAlive_rooms_of.
      rewrite decide_True by done. unfold isAlive_of. by rewrite Hsk.
    - rewrite set_isAlive_isAlive_of, set_isAlive_rooms_of.
      rewrite decide_True by done. unfold isAlive_of. by rewrite Hsk. }
  simpl. split_and!; [done | |].
  - intros Ht. apply heartbeat_terminates_only_dead in Ht; [|done..].
    congruence.
  - rewrite <- Hro. by apply heartbeat_live_rooms.
Qed.

Lemma ack_survives_sweep_witness :
  let r := heartbeat stringify (clients srv_bob_ponged) (hub srv_bob_ponged) in
  isAlive_of (hub srv_bob_ponged) sB = Some true
  ∧ (Terminate sB ∉ r.1.2)
  ∧ rooms_of r.1.1 sB = rooms_of (hub srv_probed) sB.
Proof.
  refine (ack_survives_sweep stringify verify srv_probed sB
            (EvMessage sB (Some PONG)) srv_bob_ponged
            (reachable_step _ _ _ _ _ srv_both_in_42_reachable
               (step_heartbeat stringify verify srv_both_in_42))
            _ (step_message stringify verify srv_probed sB (Some PONG) _ _)).
  - by right.
  - right. left.
  - by eexists.
Defined.

(** *** Broadcasts and membership *)





End HubMore.

(** * Further properties of the conflict detector *)

Section ConflictMore.
Import Conflicts Samples.

Lemma group_by_fold (key : selection_row → Z) l ks l0 :
  (∀ y, y ∈ l0 → key y ∈ ks) →
  foldl (group_step key) (groups_of key ks l0) l
  = groups_of key (foldl JsSet.add ks (key <$> l)) (l0 ++ l).
Proof.
  revert ks l0. induction l as [|x l IH]; intros ks l0 Hcov.
  - simpl. by rewrite app_nil_r.
  - cbn [foldl]. rewrite group_step_groups_of by done.
    rewrite IH, fmap_cons, <- (assoc_L (++)); [done |].
    intros y [Hy| ->%list_elem_of_singleton]%elem_of_app;
      apply elem_of_JsSet_add; auto.
Qed.

Lemma foldl_JsSet_add_NoDup (ks l : list Z) :
  NoDup ks → NoDup (foldl JsSet.add ks l).
Proof.
  revert ks. induction l as [|x l IH]; intros ks Hnd; [done |].
  simpl. by apply IH, JsSet_add_NoDup.
Qed.

Lemma elem_of_foldl_JsSet_add (ks l : list Z) k :
  k ∈ foldl JsSet.add ks l ↔ k ∈ ks ∨ k ∈ l.
Proof.
  revert ks. induction l as [|x l IH]; intros ks; simpl.
  - split; [auto | intros [?|?%elem_of_nil]; done].
  - rewrite IH, elem_of_JsSet_add, elem_of_cons. tauto.
Qed.

Lemma groups_partition {A : Type} (key : A → Z) (ks : list Z) (l : list A) :
  NoDup ks → (∀ x, x ∈ l → key x ∈ ks) →
  flat_map (λ k, filter (λ x, key x = k) l) ks ≡ₚ l.
Proof.
  intros Hnd. induction l as [|x l IH]; intros Hcov.
  - by rewrite flat_map_nil_all.
  - rewrite (flat_map_ext _
      (λ k, (if decide (key x = k) then [x] else [])
            ++ filter (λ y, key y = k) l)).
    2:{ intros k. rewrite filter_cons. by destruct (decide (key x = k)). }
    rewrite flat_map_app_perm.
    rewrite (flat_map_only (λ _, [x])) by (done || apply Hcov; left).
    simpl. f_equiv. apply IH. intros y Hy. apply Hcov. by right.
Qed.

(** X9. The grouping loops of [getConflicts] build one entry per distinct
    key, in the order in which the keys first occur, each holding the rows
    with that key in their input order; no entry is empty and the entries
    together hold every row exactly once. *)
Theorem group_by_first_occurrence (key : selection_row → Z) sels :
  let ks := foldl JsSet.add [] (key <$> sels) in
  group_by key sels = (λ k, (k, filter (λ x, key x = k) sels)) <$> ks
  ∧ NoDup ks
  ∧ (∀ k, k ∈ ks ↔ ∃ x, x ∈ sels ∧ key x = k)
  ∧ Forall (λ e, e.2 ≠ []) (group_by key sels)
  ∧ concat (group_by key sels).*2 ≡ₚ sels.
Proof.
  intros ks.
  assert (Hks : ∀ k, k ∈ ks ↔ ∃ x, x ∈ sels ∧ key x = k).
  { intros k. unfold ks. rewrite elem_of_foldl_JsSet_add, list_elem_of_fmap.
    split.
    - intros [?%elem_of_nil|(x & -> & ?)]; [done | eauto].
    - intros (x & ? & <-). right. eauto. }
  assert (Hg : group_by key sels
               = (λ k, (k, filter (λ x, key x = k) sels)) <$> ks).
  { unfold group_by. change [] with (groups_of key [] []).
    rewrite group_by_fold by (by intros y ?%elem_of_nil). done. }
  assert (Hnd : NoDup ks) by (apply foldl_JsSet_add_NoDup; constructor).
  split_and!; [done | done | done | |].
  - rewrite Hg. apply Forall_fmap, Forall_forall. intros k Hk. simpl.
    apply Hks in Hk as (x & Hx & Hkx). intros Hnil.
    assert (x ∈ filter (λ y, key y = k) sels)
      by (by apply list_elem_of_filter).
    rewrite Hnil in *. by eapply elem_of_nil.
  - rewrite Hg, <- list_fmap_compose.
    transitivity (flat_map (λ k, filter (λ x, key x = k) sels) ks).
    + clear. induction ks as [|k ks IH]; [done |]. csimpl. by rewrite IH.
    + apply groups_partition; [done |]. intros x Hx. apply Hks. eauto.
Qed.

Lemma ordered_pairs_length {A : Type} (l : list A) :
  (2 * length (ordered_pairs l) = length l * (length l - 1))%nat.
Proof.
  induction l as [|x l IH]; [done |].
  simpl. rewrite length_app, length_fmap. nia.
Qed.

Lemma filter_pairs_length_perm {A : Type} (P : A * A → Prop)
    `{!∀ p, Decision (P p)} (l l' : list A) :
  (∀ a b, P (a, b) ↔ P (b, a)) → l ≡ₚ l' →
  length (filter P (ordered_pairs l)) = length (filter P (ordered_pairs l')).
Proof.
  intros Hsym Hperm.
  assert (Hrow : ∀ x (k k' : list A), k ≡ₚ k' →
            length (filter P ((λ y, (x, y)) <$> k))
            = length (filter P ((λ y, (x, y)) <$> k'))).
  { intros x k k' Hk. apply Permutation_length. by rewrite Hk. }
  induction Hperm as [|x l l' Hperm IH|x y l|l1 l2 l3 _ IH1 _ IH2].
  - done.
  - simpl. rewrite !filter_app, !length_app, IH. f_equal. by apply Hrow.
  - cbn [ordered_pairs].
    rewrite !fmap_cons, <- !app_comm_cons, !filter_cons, !filter_app.
    destruct (decide (P (y, x))) as [Hyx|Hyx], (decide (P (x, y))) as [Hxy|Hxy];
      try (by apply Hsym in Hyx); try (by apply Hsym in Hxy);
      simpl; rewrite !length_app; lia.
  - congruence.
Qed.

(** X10. The number of conflicts reported does not depend on the order of
    the rows, and is at most the number of pairs of rows. *)
Theorem detectConflicts_count (sels : list selection_row) :
  (2 * length (detectConflicts sels) ≤ length sels * (length sels - 1))%nat
  ∧ ∀ sels', sels ≡ₚ sels' →
      length (detectConflicts sels) = length (detectConflicts sels').
Proof.
  assert (Hlen : ∀ l, length (detectConflicts l)
                      = length (filter is_conflict (ordered_pairs l))).
  { intros l. rewrite (Permutation_length (detectConflicts_perm l)).
    apply length_fmap. }
  split.
  - rewrite Hlen, <- ordered_pairs_length.
    pose proof (length_filter is_conflict (ordered_pairs sels)). lia.
  - intros sels' Hperm. rewrite !Hlen.
    apply filter_pairs_length_perm; [|done].
    intros a b. unfold is_conflict. simpl. intuition congruence.
Qed.

Lemma detectConflicts_count_witness :
  length (detectConflicts [act_10_1130; act_11_12; act_10_11])
  = length (detectConflicts [act_10_11; act_10_1130; act_11_12]).
Proof.
  apply (proj2 (detectConflicts_count [act_10_1130; act_11_12; act_10_11])).
  by rewrite (Permutation_app_comm [act_10_1130; act_11_12] [act_10_11]).
Defined.

End ConflictMore.

(** * Further properties of the selection API *)

Section SelectionMore.
Import Shared Selections Samples.
Implicit Types (db : database).

(** X11. The two handlers act on the caller's own selection of the named
    act only: every other row of [selections] and all other tables are
    left as they were; and for a caller who is not a member of the group
    they change nothing, broadcast nothing and answer 403. *)
Theorem selection_only_own_row db groupId userId actId priority :
  let added := addSelection db groupId userId actId priority in
  let removed := removeSelection db groupId userId actId in
  (∀ key, key ≠ (userId, groupId, actId) →
     selections added.1.1 !! key = selections db !! key
     ∧ selections removed.1.1 !! key = selections db !! key)
  ∧ (users added.1.1 = users db ∧ group_members added.1.1 = group_members db
     ∧ group_acts added.1.1 = group_acts db)
  ∧ (users removed.1.1 = users db
     ∧ group_members removed.1.1 = group_members db
     ∧ group_acts removed.1.1 = group_acts db)
  ∧ ((groupId, userId) ∉ group_members db →
     added = (db, AppError "Not a member of this group" 403, [])
     ∧ removed = (db, AppError "Not a member of this group" 403, [])).
Proof.
  intros added removed. subst added removed. unfold addSelection, removeSelection.
  split; [|split; [|split]].
  - intros key Hkey. split.
    + destruct (bool_decide ((groupId, userId) ∉ group_members db)); [done |].
      destruct (bool_decide ((actId, groupId) ∉ group_acts db)); [done |].
      destruct (selections db !! (userId, groupId, actId)); simpl;
        [by rewrite lookup_insert_ne |].
      destruct (users db !! userId); simpl; by rewrite lookup_insert_ne.
    + destruct (bool_decide ((groupId, userId) ∉ group_members db)); simpl;
        [done |].
      rewrite lookup_delete_ne; [done | congruence].
  - destruct (bool_decide ((groupId, userId) ∉ group_members db)); [done |].
    destruct (bool_decide ((actId, groupId) ∉ group_acts db)); [done |].
    destruct (selections db !! (userId, groupId, actId)); [done |].
    by destruct (users db !! userId).
  - by destruct (bool_decide ((groupId, userId) ∉ group_members db)).
  - intros Hm. by rewrite !bool_decide_true by done.
Qed.

Lemma selection_only_own_row_witness :
  addSelection db0 42 3 8 None
  = (db0, AppError "Not a member of this group" 403, [])
  ∧ removeSelection db0 42 3 7
    = (db0, AppError "Not a member of this group" 403, []).
Proof.
  split.
  - apply (proj2 (proj2 (proj2 (selection_only_own_row db0 42 3 8 None)))).
    by vm_compute.
  - apply (proj2 (proj2 (proj2 (selection_only_own_row db0 42 3 7 None)))).
    by vm_compute.
Defined.



End SelectionMore.

(** * The artists of a playlist *)

Section PlaylistArtists.
Import Playlists.

Lemma artistMap_from (m : list (string * artist)) l :
  foldl artistMap_step m l
  = m ++ filter (λ e, e.1 ∉ m.*1) (artistMap l).
Proof.
  unfold artistMap. induction l as [|x l IH] using rev_ind.
  - simpl. by rewrite app_nil_r.
  - rewrite !foldl_snoc, IH. set (U := foldl artistMap_step [] l).
    unfold artistMap_step.
    assert (Hin : act_name x ∈ (m ++ filter (λ e, e.1 ∉ m.*1) U).*1
                  ↔ act_name x ∈ m.*1 ∨ act_name x ∈ U.*1).
    { rewrite fmap_app, elem_of_app. split; (intros [?|HU]; [by left |]).
      - apply list_elem_of_fmap in HU as (e & -> & [_ ?]%list_elem_of_filter).
        right. apply list_elem_of_fmap. eauto.
      - destruct (decide (act_name x ∈ m.*1)); [by left | right].
        apply list_elem_of_fmap in HU as (e & He & HeU).
        apply list_elem_of_fmap. exists e. split; [done |].
        apply list_elem_of_filter. split; [congruence | done]. }
    destruct (decide (act_name x ∈ U.*1)) as [HU|HU].
    + rewrite (bool_decide_true (_ ∈ U.*1)) by done.
      rewrite bool_decide_true; [done |]. apply Hin. by right.
    + rewrite (bool_decide_false (_ ∈ U.*1)) by done.
      rewrite filter_app, filter_cons, filter_nil. simpl.
      destruct (decide (act_name x ∉ m.*1)) as [Hm|Hm].
      * rewrite bool_decide_false; [by rewrite (assoc_L (++)) |].
        rewrite Hin. tauto.
      * apply dec_stable in Hm. rewrite bool_decide_true by (apply Hin; by left).
        by rewrite app_nil_r.
Qed.

Lemma artistMap_cons x l :
  artistMap (x :: l)
  = (act_name x, artist_of x) :: filter (λ e, e.1 ≠ act_name x) (artistMap l).
Proof.
  unfold artistMap at 1. simpl. rewrite artistMap_from. simpl. f_equal.
  apply list_filter_iff. intros e. simpl.
  rewrite list_elem_of_singleton. done.
Qed.

Lemma artistMap_entries l e :
  e ∈ artistMap l →
  ∃ l1 s l2, l = l1 ++ s :: l2 ∧ (act_name s ∉ act_name <$> l1)
             ∧ e = (act_name s, artist_of s).
Proof.
  revert e. induction l as [|x l IH]; intros e.
  - by intros ?%elem_of_nil.
  - rewrite artistMap_cons.
    intros [->|[Hne He]%list_elem_of_filter]%elem_of_cons.
    + exists [], x, l. split_and!; [done | apply not_elem_of_nil | done].
    + destruct (IH e He) as (l1 & s & l2 & -> & Hs & ->).
      exists (x :: l1), s, l2. split_and!; [done | | done].
      rewrite fmap_cons. apply not_elem_of_cons. split; [|done].
      simpl in Hne. congruence.
Qed.

Lemma artistMap_keys l n : n ∈ (artistMap l).*1 ↔ n ∈ act_name <$> l.
Proof.
  induction l as [|x l IH]; [done |].
  rewrite artistMap_cons, !fmap_cons, !elem_of_cons. simpl.
  rewrite <- IH. split; (intros [?|Hn]; [by left |]).
  - right. apply list_elem_of_fmap in Hn as (e & -> & [_ ?]%list_elem_of_filter).
    apply list_elem_of_fmap. eauto.
  - destruct (decide (n = act_name x)); [by left | right].
    apply list_elem_of_fmap in Hn as (e & -> & He).
    apply list_elem_of_fmap. exists e. split; [done |].
    by apply list_elem_of_filter.
Qed.

Lemma artistMap_keys_NoDup l : NoDup (artistMap l).*1.
Proof.
  induction l as [|x l IH]; [constructor |].
  rewrite artistMap_cons, fmap_cons. apply NoDup_cons. split.
  - simpl. intros (e & He & [Hne _]%list_elem_of_filter)%list_elem_of_fmap.
    by apply Hne.
  - revert IH. generalize (artistMap l). intros m.
    induction m as [|e m IHm]; [done |].
    rewrite fmap_cons. intros [He Hm]%NoDup_cons. rewrite filter_cons.
    destruct (decide (e.1 ≠ act_name x)); [|by apply IHm].
    rewrite fmap_cons. apply NoDup_cons. split; [|by apply IHm].
    intros (e' & He' & [_ ?]%list_elem_of_filter)%list_elem_of_fmap.
    apply He. apply list_elem_of_fmap. eauto.
Qed.

Lemma artistMap_names l : name <$> (artistMap l).*2 = (artistMap l).*1.
Proof.
  rewrite <- list_fmap_compose. apply list_fmap_ext.
  intros _ e He%list_elem_of_lookup_2.
  by destruct (artistMap_entries l e He) as (? & ? & ? & _ & _ & ->).
Qed.

Lemma filter_named (m : list (string * artist)) k :
  (∀ e, e ∈ m → e.1 = name e.2) →
  (filter (λ e, e.1 ≠ k) m).*2 = filter (λ a, name a ≠ k) m.*2.
Proof.
  induction m as [|e m IH]; intros Hm; [done |].
  rewrite fmap_cons, !filter_cons, <- (Hm e) by left.
  rewrite <- IH by (intros e' He'; apply Hm; by right).
  by destruct (decide (e.1 ≠ k)).
Qed.

(** X13. The artist list [createPlaylist] builds has one artist per
    distinct act name of the selections, each taken from the first
    selection row with that name (so with that row's Spotify id), in the
    order of those first rows; it is empty only for no selections. *)
Theorem uniqueArtists_first_wins (selections : list SelectionWithActRow) :
  NoDup (name <$> uniqueArtists selections)
  ∧ (∀ n, n ∈ name <$> uniqueArtists selections
          ↔ n ∈ act_name <$> selections)
  ∧ (∀ a, a ∈ uniqueArtists selections →
       ∃ l1 s l2, selections = l1 ++ s :: l2
                  ∧ (act_name s ∉ act_name <$> l1)
                  ∧ a = Artist (act_name s) (artist_spotify_id s))
  ∧ (uniqueArtists selections = [] ↔ selections = [])
  ∧ (∀ s rest, selections = s :: rest →
       uniqueArtists selections
       = Artist (act_name s) (artist_spotify_id s)
         :: filter (λ a, name a ≠ act_name s) (uniqueArtists rest)).
Proof.
  unfold uniqueArtists. split_and!.
  - rewrite artistMap_names. apply artistMap_keys_NoDup.
  - intros n. rewrite artistMap_names. apply artistMap_keys.
  - intros a (e & -> & He)%list_elem_of_fmap.
    destruct (artistMap_entries _ e He) as (l1 & s & l2 & ? & ? & ->).
    by exists l1, s, l2.
  - destruct selections as [|x l]; [done |].
    rewrite artistMap_cons. done.
  - intros s rest ->. rewrite artistMap_cons, fmap_cons. simpl. f_equal.
    apply filter_named. intros e He.
    by destruct (artistMap_entries rest e He) as (? & ? & ? & _ & _ & ->).
Qed.

Lemma uniqueArtists_first_wins_witness :
  uniqueArtists Samples.sel_rows = [Artist "Opener" (Some "sp1"); Artist "Second" None]
  ∧ ∀ a, a ∈ uniqueArtists Samples.sel_rows →
      ∃ l1 s l2, Samples.sel_rows = l1 ++ s :: l2
                 ∧ (act_name s ∉ act_name <$> l1)
                 ∧ a = Artist (act_name s) (artist_spotify_id s).
Proof.
  destruct (uniqueArtists_first_wins Samples.sel_rows) as (_ & _ & H3 & _ & H5).
  split; [exact (H5 _ _ eq_refl) | exact H3].
Defined.

End PlaylistArtists.

(** * The client's reconnection delays *)

Section Reconnect.
Import Client.

Lemma reconnect_delay_cap n : 0 ≤ n → (reconnect_delay n = 30000 ↔ 5 ≤ n).
Proof.
  intros Hn. unfold reconnect_delay. split.
  - intros Hd. destruct (decide (5 ≤ n)) as [|Hlt]; [done |].
    assert (2 ^ n ≤ 2 ^ 4) by (apply Z.pow_le_mono_r; lia).
    change (2 ^ 4) with 16 in *. lia.
  - intros H5.
    assert (2 ^ 5 ≤ 2 ^ n) by (apply Z.pow_le_mono_r; lia).
    change (2 ^ 5) with 32 in *. lia.
Qed.

(** X14. The delay before the client reconnects doubles from one second
    with every close in a row, is never below one second nor above thirty,
    and is thirty seconds from the sixth close on; a successful open
    starts the series again. *)
Theorem reconnect_backoff n :
  0 ≤ n →
  1000 ≤ reconnect_delay n ≤ 30000
  ∧ (n < 5 → reconnect_delay n = 1000 * 2 ^ n)
  ∧ (reconnect_delay n = 30000 ↔ 5 ≤ n)
  ∧ (∀ m, n ≤ m → reconnect_delay n ≤ reconnect_delay m)
  ∧ (onclose n).2 = n + 1
  ∧ (onclose (onopen n)).1 = 1000
  ∧ (closes 7 0).1 = [1000; 2000; 4000; 8000; 16000; 30000; 30000].
Proof.
  intros Hn.
  assert (Hpow : 1 ≤ 2 ^ n) by (apply (Z.pow_le_mono_r 2 0 n); lia).
  split_and!.
  - unfold reconnect_delay. lia.
  - unfold reconnect_delay. lia.
  - intros H5. unfold reconnect_delay.
    assert (2 ^ n ≤ 2 ^ 4) by (apply Z.pow_le_mono_r; lia).
    change (2 ^ 4) with 16 in *. lia.
  - by apply reconnect_delay_cap.
  - intros m Hm. unfold reconnect_delay.
    assert (2 ^ n ≤ 2 ^ m) by (apply Z.pow_le_mono_r; lia). lia.
  - done.
  - done.
  - done.
Qed.

Lemma reconnect_backoff_witness :
  1000 ≤ reconnect_delay 3 ≤ 30000
  ∧ (3 < 5 → reconnect_delay 3 = 1000 * 2 ^ 3)
  ∧ (reconnect_delay 3 = 30000 ↔ 5 ≤ 3)
  ∧ (∀ m, 3 ≤ m → reconnect_delay 3 ≤ reconnect_delay m)
  ∧ (onclose 3).2 = 3 + 1
  ∧ (onclose (onopen 3)).1 = 1000
  ∧ (closes 7 0).1 = [1000; 2000; 4000; 8000; 16000; 30000; 30000].
Proof. apply (reconnect_backoff 3). lia. Defined.

End Reconnect.

(** * Festival times: validation, order and display *)

Section Times.
Import Conflicts TimeFormat Samples.

Lemma in_range_spec lo hi c :
  in_range lo hi c = true ↔ lo ≤ code c ≤ hi.
Proof.
  unfold in_range. rewrite andb_true_iff, !Z.leb_le. done.
Qed.

Lemma code_inj c d : code c = code d → c = d.
Proof.
  unfold code. intros H%N2Z.inj.
  by rewrite <- (ascii_N_embedding c), <- (ascii_N_embedding d), H.
Qed.

Lemma is_colon_spec c : is_colon c = true ↔ c = ":"%char.
Proof.
  unfold is_colon. rewrite Z.eqb_eq. split.
  - intros H. by apply code_inj.
  - by intros ->.
Qed.

Lemma digit_not_colon c : code c ≤ 57 → is_colon c = false.
Proof. unfold is_colon. intros H. apply Z.eqb_neq. lia. Qed.

Lemma split_colon_cons c s :
  split_colon (String c s)
  = if is_colon c then (EmptyString, (split_colon s).1 :: (split_colon s).2)
    else (String c (split_colon s).1, (split_colon s).2).
Proof. cbn [split_colon]. by destruct (split_colon s). Qed.

Lemma extendedTimeRegex_inv t :
  extendedTimeRegex t = true →
  ∃ c1 c2 c4 c5, t = time_of c1 c2 c4 c5
    ∧ 48 ≤ code c1 ≤ 50 ∧ 48 ≤ code c2 ≤ 57
    ∧ 48 ≤ code c4 ≤ 53 ∧ 48 ≤ code c5 ≤ 57.
Proof.
  destruct t as [|c1 [|c2 [|c3 [|c4 [|c5 [|]]]]]]; try done.
  cbn [extendedTimeRegex]. rewrite !andb_true_iff.
  unfold is_digit. rewrite !in_range_spec, is_colon_spec.
  intros [[[[H1 H2] ->] H4] H5]. by exists c1, c2, c4, c5.
Qed.

Lemma ToNumber_two c1 c2 :
  48 ≤ code c1 ≤ 57 → 48 ≤ code c2 ≤ 57 →
  ToNumber (String c1 (String c2 EmptyString))
  = Some (10 * (code c1 - 48) + (code c2 - 48)).
Proof.
  intros H1%in_range_spec H2%in_range_spec.
  unfold ToNumber. cbn [String.length Nat.ltb Nat.leb digits_value].
  unfold is_digit. by rewrite H1, H2.
Qed.

Lemma split_colon_time c1 c2 c4 c5 :
  code c1 ≤ 57 → code c2 ≤ 57 → code c4 ≤ 57 → code c5 ≤ 57 →
  split_colon (time_of c1 c2 c4 c5)
  = (String c1 (String c2 EmptyString), [String c4 (String c5 EmptyString)]).
Proof.
  intros H1 H2 H4 H5. unfold time_of. rewrite !split_colon_cons.
  rewrite (digit_not_colon c1), (digit_not_colon c2), (digit_not_colon c4),
    (digit_not_colon c5) by done.
  done.
Qed.

Lemma parseTimeToMinutes_time c1 c2 c4 c5 :
  48 ≤ code c1 ≤ 57 → 48 ≤ code c2 ≤ 57 →
  48 ≤ code c4 ≤ 57 → 48 ≤ code c5 ≤ 57 →
  parseTimeToMinutes (time_of c1 c2 c4 c5)
  = Some (Num (minutes_of c1 c2 c4 c5)).
Proof.
  intros H1 H2 H4 H5. unfold parseTimeToMinutes.
  rewrite split_colon_time by lia.
  rewrite !ToNumber_two by done. done.
Qed.

Lemma ascii_compare_code c d : Ascii.compare c d = (code c ?= code d).
Proof. unfold Ascii.compare, code. by rewrite N2Z.inj_compare. Qed.

Lemma str_lt_time c1 c2 c4 c5 d1 d2 d4 d5 :
  48 ≤ code c2 ≤ 57 → 48 ≤ code c4 ≤ 53 → 48 ≤ code c5 ≤ 57 →
  48 ≤ code d2 ≤ 57 → 48 ≤ code d4 ≤ 53 → 48 ≤ code d5 ≤ 57 →
  str_lt (time_of c1 c2 c4 c5) (time_of d1 d2 d4 d5) = true
  ↔ minutes_of c1 c2 c4 c5 < minutes_of d1 d2 d4 d5.
Proof.
  intros. unfold str_lt, String.ltb, time_of, minutes_of.
  cbn [String.compare]. rewrite !ascii_compare_code.
  change (code ":" ?= code ":") with Eq. cbv iota.
  destruct (Z.compare_spec (code c1) (code d1));
  destruct (Z.compare_spec (code c2) (code d2));
  destruct (Z.compare_spec (code c4) (code d4));
  destruct (Z.compare_spec (code c5) (code d5));
  split; intros; try done; lia.
Qed.

Lemma time_of_inj c1 c2 c4 c5 d1 d2 d4 d5 :
  48 ≤ code c2 ≤ 57 → 48 ≤ code c4 ≤ 53 → 48 ≤ code c5 ≤ 57 →
  48 ≤ code d2 ≤ 57 → 48 ≤ code d4 ≤ 53 → 48 ≤ code d5 ≤ 57 →
  minutes_of c1 c2 c4 c5 = minutes_of d1 d2 d4 d5 →
  time_of c1 c2 c4 c5 = time_of d1 d2 d4 d5.
Proof.
  unfold minutes_of, time_of. intros.
  assert (code c1 = code d1) by lia. assert (code c2 = code d2) by lia.
  assert (code c4 = code d4) by lia. assert (code c5 = code d5) by lia.
  by repeat match goal with H : code _ = code _ |- _ =>
    apply code_inj in H; subst end.
Qed.

Lemma hours_in_range_time c1 c2 c4 c5 :
  48 ≤ code c1 ≤ 50 → 48 ≤ code c2 ≤ 57 →
  48 ≤ code c4 ≤ 53 → 48 ≤ code c5 ≤ 57 →
  hours_in_range (time_of c1 c2 c4 c5) = Some true.
Proof.
  intros. unfold hours_in_range. rewrite split_colon_time by lia.
  cbn [fst parseInt]. rewrite ToNumber_two by lia. cbn.
  f_equal. apply Z.leb_le. lia.
Qed.

Lemma extendedTimeSchema_time c1 c2 c4 c5 :
  48 ≤ code c1 ≤ 50 → 48 ≤ code c2 ≤ 57 →
  48 ≤ code c4 ≤ 53 → 48 ≤ code c5 ≤ 57 →
  extendedTimeSchema (time_of c1 c2 c4 c5) = Some true.
Proof.
  intros H1 H2 H4 H5. unfold extendedTimeSchema.
  rewrite hours_in_range_time by done.
  cbn [time_of extendedTimeRegex]. unfold is_digit.
  apply in_range_spec in H1, H2, H4, H5. by rewrite H1, H2, H4, H5.
Qed.

Lemma extendedTimeSchema_inv t :
  extendedTimeSchema t = Some true →
  ∃ c1 c2 c4 c5, t = time_of c1 c2 c4 c5
    ∧ 48 ≤ code c1 ≤ 50 ∧ 48 ≤ code c2 ≤ 57
    ∧ 48 ≤ code c4 ≤ 53 ∧ 48 ≤ code c5 ≤ 57.
Proof.
  unfold extendedTimeSchema.
  destruct (extendedTimeRegex t) eqn:E; [|done].
  intros _. by apply extendedTimeRegex_inv.
Qed.

(** X15. A time passes [extendedTimeSchema] exactly when it matches the
    pattern: the refinement on the hour never rejects a matching string.
    Every matching time parses to a number of minutes from 0 up to, not
    including, 1800 (30 hours). *)
Theorem extendedTimeSchema_is_regex (t : string) :
  extendedTimeSchema t = Some (extendedTimeRegex t)
  ∧ (extendedTimeRegex t = true →
     ∃ m, parseTimeToMinutes t = Some (Num m) ∧ 0 ≤ m < 1800).
Proof.
  split.
  - unfold extendedTimeSchema. destruct (extendedTimeRegex t) eqn:E; [|done].
    apply extendedTimeRegex_inv in E
      as (c1 & c2 & c4 & c5 & -> & ? & ? & ? & ?).
    by apply hours_in_range_time.
  - intros (c1 & c2 & c4 & c5 & -> & ? & ? & ? & ?)%extendedTimeRegex_inv.
    exists (minutes_of c1 c2 c4 c5). split.
    + apply parseTimeToMinutes_time; lia.
    + unfold minutes_of. lia.
Qed.

Lemma extendedTimeSchema_is_regex_witness :
  extendedTimeSchema "25:30" = Some true
  ∧ ∃ m, parseTimeToMinutes "25:30" = Some (Num m) ∧ 0 ≤ m < 1800.
Proof.
  destruct (extendedTimeSchema_is_regex "25:30") as [H1 H2].
  split; [exact H1 | apply H2; reflexivity].
Defined.

(** X16. On two validated times the string comparison the conflict
    detector uses is the chronological one: [a < b] as strings exactly
    when [a] is fewer minutes than [b], and two validated times are the
    same string exactly when they are the same minute. *)
Theorem validated_times_order (a b : string) :
  extendedTimeSchema a = Some true →
  extendedTimeSchema b = Some true →
  ∃ ma mb,
    parseTimeToMinutes a = Some (Num ma)
    ∧ parseTimeToMinutes b = Some (Num mb)
    ∧ (str_lt a b = true ↔ ma < mb)
    ∧ (a = b ↔ ma = mb).
Proof.
  intros (c1 & c2 & c4 & c5 & -> & ? & ? & ? & ?)%extendedTimeSchema_inv
         (d1 & d2 & d4 & d5 & -> & ? & ? & ? & ?)%extendedTimeSchema_inv.
  exists (minutes_of c1 c2 c4 c5), (minutes_of d1 d2 d4 d5).
  split; [apply parseTimeToMinutes_time; lia|].
  split; [apply parseTimeToMinutes_time; lia|].
  split; [by apply str_lt_time|].
  split; [by intros [= -> -> -> ->] | by apply time_of_inj].
Qed.

Lemma validated_times_order_witness :
  ∃ ma mb,
    parseTimeToMinutes "23:30" = Some (Num ma)
    ∧ parseTimeToMinutes "25:00" = Some (Num mb)
    ∧ (str_lt "23:30" "25:00" = true ↔ ma < mb)
    ∧ ("23:30" = "25:00" ↔ ma = mb).
Proof. apply (validated_times_order "23:30" "25:00"); reflexivity. Defined.

(** X17. For two acts with validated times the detector's overlap test
    holds exactly when the two time intervals, in minutes, intersect:
    each act starts strictly before the other ends. *)
Theorem overlaps_validated_times (a b : selection_row) :
  extendedTimeSchema (start_time a) = Some true →
  extendedTimeSchema (end_time a) = Some true →
  extendedTimeSchema (start_time b) = Some true →
  extendedTimeSchema (end_time b) = Some true →
  ∃ sa ea sb eb,
    parseTimeToMinutes (start_time a) = Some (Num sa)
    ∧ parseTimeToMinutes (end_time a) = Some (Num ea)
    ∧ parseTimeToMinutes (start_time b) = Some (Num sb)
    ∧ parseTimeToMinutes (end_time b) = Some (Num eb)
    ∧ (overlaps a b = true ↔ sa < eb ∧ sb < ea).
Proof.
  unfold overlaps.
  destruct a as [? ? ? ? sa ea ? ? ?], b as [? ? ? ? sb eb ? ? ?].
  cbn [start_time end_time].
  intros (a1 & a2 & a4 & a5 & -> & ? & ? & ? & ?)%extendedTimeSchema_inv
         (b1 & b2 & b4 & b5 & -> & ? & ? & ? & ?)%extendedTimeSchema_inv
         (c1 & c2 & c4 & c5 & -> & ? & ? & ? & ?)%extendedTimeSchema_inv
         (d1 & d2 & d4 & d5 & -> & ? & ? & ? & ?)%extendedTimeSchema_inv.
  eexists _, _, _, _.
  split; [apply parseTimeToMinutes_time; lia|].
  split; [apply parseTimeToMinutes_time; lia|].
  split; [apply parseTimeToMinutes_time; lia|].
  split; [apply parseTimeToMinutes_time; lia|].
  rewrite andb_true_iff, !str_lt_time by done. done.
Qed.

Lemma overlaps_validated_times_witness :
  ∃ sa ea sb eb,
    parseTimeToMinutes (start_time act_23_2530) = Some (Num sa)
    ∧ parseTimeToMinutes (end_time act_23_2530) = Some (Num ea)
    ∧ parseTimeToMinutes (start_time act_2430_26) = Some (Num sb)
    ∧ parseTimeToMinutes (end_time act_2430_26) = Some (Num eb)
    ∧ (overlaps act_23_2530 act_2430_26 = true ↔ sa < eb ∧ sb < ea).
Proof.
  apply (overlaps_validated_times act_23_2530 act_2430_26); reflexivity.
Defined.

Lemma digit_cases c :
  48 ≤ code c ≤ 57 →
  In c ["0"; "1"; "2"; "3"; "4"; "5"; "6"; "7"; "8"; "9"]%char.
Proof.
  intros H. unfold code in H. rewrite <- (ascii_N_embedding c).
  generalize dependent (N_of_ascii c). intros n H.
  assert (n = 48 ∨ n = 49 ∨ n = 50 ∨ n = 51 ∨ n = 52 ∨ n = 53 ∨ n = 54
          ∨ n = 55 ∨ n = 56 ∨ n = 57)%N as Hn by lia.
  repeat (destruct Hn as [->|Hn]; [cbn; tauto|]).
  subst n. cbn. tauto.
Qed.

Lemma two_digits_print c1 c2 :
  48 ≤ code c1 ≤ 57 → 48 ≤ code c2 ≤ 57 →
  padStart2 (toString (10 * (code c1 - 48) + (code c2 - 48)))
  = String c1 (String c2 EmptyString).
Proof.
  intros H1%digit_cases H2%digit_cases. cbn [In] in H1, H2.
  repeat (destruct H1 as [<-|H1]); try done;
  repeat (destruct H2 as [<-|H2]); try done; reflexivity.
Qed.

(** X18. [formatDisplayTime] on a validated time: a time before 24:00 is
    returned unchanged; a time from 24:00 on is shown as the validated
    time 24 hours earlier followed by [ (+1)]. *)
Theorem formatDisplayTime_validated (t : string) :
  extendedTimeSchema t = Some true →
  ∃ m, parseTimeToMinutes t = Some (Num m)
    ∧ (m < 1440 → formatDisplayTime t = Some (Returns t))
    ∧ (1440 ≤ m →
       ∃ t', formatDisplayTime t = Some (Returns (t' +:+ " (+1)"))
         ∧ extendedTimeSchema t' = Some true
         ∧ parseTimeToMinutes t' = Some (Num (m - 1440))).
Proof.
  intros (c1 & c2 & c4 & c5 & -> & ? & ? & ? & ?)%extendedTimeSchema_inv.
  exists (minutes_of c1 c2 c4 c5).
  split; [apply parseTimeToMinutes_time; lia|].
  unfold formatDisplayTime. rewrite split_colon_time by lia.
  rewrite !ToNumber_two by lia. cbn [mbind option_bind].
  unfold minutes_of. split.
  - intros Hm. destruct (Z.leb_spec 24 (10 * (code c1 - 48) + (code c2 - 48)));
      [lia | done].
  - intros Hm. destruct (Z.leb_spec 24 (10 * (code c1 - 48) + (code c2 - 48)));
      [|lia].
    assert (code c1 = code "2"%char) as ->%code_inj
      by (change (code "2") with 50; lia).
    change (code "2") with 50 in *.
    assert (∃ d, 48 ≤ code d ≤ 53 ∧ code c2 = code d + 4) as (d & Hd & Hc2).
    { exists (ascii_of_N (Z.to_N (code c2 - 4))). unfold code in *.
      rewrite N_ascii_embedding by lia. lia. }
    exists (time_of "0" d c4 c5).
    assert (code "0" = 48) as H0' by done.
    split; [|split].
    + rewrite two_digits_print by lia.
      replace (10 * (50 - 48) + (code c2 - 48) - 24)
        with (10 * (code "0" - 48) + (code d - 48)) by lia.
      rewrite two_digits_print by lia. done.
    + apply extendedTimeSchema_time; lia.
    + rewrite parseTimeToMinutes_time by lia.
      unfold minutes_of. do 2 f_equal. lia.
Qed.

Lemma formatDisplayTime_validated_witness :
  ∃ m, parseTimeToMinutes "25:30" = Some (Num m)
    ∧ (m < 1440 → formatDisplayTime "25:30" = Some (Returns "25:30"))
    ∧ (1440 ≤ m →
       ∃ t', formatDisplayTime "25:30" = Some (Returns (t' +:+ " (+1)"))
         ∧ extendedTimeSchema t' = Some true
         ∧ parseTimeToMinutes t' = Some (Num (m - 1440))).
Proof. apply (formatDisplayTime_validated "25:30"). reflexivity. Defined.

Lemma digits_value_no_colon acc t h :
  digits_value acc t = Some h → split_colon t = (t, []).
Proof.
  revert acc. induction t as [|c t IH]; intros acc; [done |].
  cbn [digits_value]. destruct (is_digit c) eqn:Hc; [|done].
  intros Ht. rewrite split_colon_cons, (IH _ Ht).
  apply in_range_spec in Hc. rewrite digit_not_colon by lia. done.
Qed.

(** X19. A string of at most nine digits and no colon, passed as a time:
    [parseTimeToMinutes] gives [NaN]; [formatDisplayTime] returns the
    string itself when its value is below 24 and throws a [TypeError]
    (the minutes are undefined) when it is 24 or more. *)
Theorem time_without_colon (t : string) (h : Z) :
  ToNumber t = Some h →
  parseTimeToMinutes t = Some NaN
  ∧ (h < 24 → formatDisplayTime t = Some (Returns t))
  ∧ (24 ≤ h → formatDisplayTime t = Some ThrowsTypeError).
Proof.
  intros Ht.
  assert (split_colon t = (t, [])) as Hs.
  { unfold ToNumber in Ht. destruct (9 <? String.length t)%nat; [done |].
    by eapply digits_value_no_colon. }
  unfold parseTimeToMinutes, formatDisplayTime. rewrite Hs, Ht.
  cbn [mbind option_bind].
  split; [done |]. split; intros Hh.
  - destruct (Z.leb_spec 24 h); [lia | done].
  - destruct (Z.leb_spec 24 h); [done | lia].
Qed.

Lemma time_without_colon_witness :
  parseTimeToMinutes "25" = Some NaN
  ∧ (25 < 24 → formatDisplayTime "25" = Some (Returns "25"))
  ∧ (24 ≤ 25 → formatDisplayTime "25" = Some ThrowsTypeError).
Proof. apply (time_without_colon "25" 25). reflexivity. Defined.

End Times.
